(** * The eventstore write path: [Push], [writeEvents], [checkExecutionPlan]

    A shallow embedding of the Go package [eventstore] (push path).  The
    three functions of the package are written as computations over an
    explicit store (the database world and the heap holding the [*event]
    objects); every call that leaves the package is recorded, with its
    result, in the trace the computation emits. *)

From Stdlib Require Import ZArith.
From stdpp Require Import base strings list gmap.

Local Open Scope Z_scope.
Local Open Scope nat_scope.

(** ** Values *)

(** Go's [error]: [option error], [None] being [nil]. *)
Definition error := string.

(** Handles of [*sql.Conn], [*sql.Tx], [*pgx.Conn] and addresses of [*event]
    objects. *)
Definition conn := nat.
Definition tx := nat.
Definition pgconn := nat.
Definition ptr := nat.

(** Modelled from the spec: the [eventstore.Command] interface is declared
    outside this file; a command is a write intent against one aggregate
    (aggregate identifier, aggregate type, command type, payload). *)
Record Command := mkCommand {
  aggregateID : string;
  aggregateType : string;
  commandType : string;
  payload : string;
}.

(** Modelled from the spec: the [command] struct, one element of the
    backend-call payload [cmds], declared outside this file. *)
Record command := mkcommand { encoded : Command }.

(** Modelled from the spec: the [event] struct is declared outside this file;
    the row scan shows its three ordering fields, the rest of the event is
    the command it carries. *)
Record event := mkevent {
  ev_command : command;
  createdAt : Z;
  sequence : N;
  position : Z;
}.

(** An [eventstore.Event] interface value as the row scan sees it.  A slice
    [[]eventstore.Event] is a list of such values; the nil slice is the
    empty list. *)
Inductive Event :=
| EventNil                      (* the nil interface value *)
| EventPtr (p : option ptr)     (* dynamic type [*event]; [None] is the nil pointer *)
| EventOther (tag : string).    (* any other implementation of the interface *)

(** One result row of the bulk insert: the three scanned columns. *)
Record row := mkrow {
  row_createdAt : Z;
  row_sequence : N;
  row_position : Z;
}.

(** What a [Scan] that fails has assigned by then: [Scan] converts the
    columns into its destinations in order and returns at the first column
    that fails, the destinations before it assigned. *)
Inductive assigned :=
| NoColumn                           (* failed before or at the first column *)
| UpToCreatedAt (c : Z)              (* failed at the second column *)
| UpToSequence (c : Z) (q : N).      (* failed at the third column *)

(** [*sql.Rows]: the rows [Next] delivers, each with the result its [Scan]
    has ([inl (e, a)]: the scan fails with [e], having assigned [a]), and
    what [Err] reports once [Next] has returned false. *)
Record Rows := mkRows {
  rows_items : list (error * assigned + row);
  rows_Err : option error;
}.

Inductive IsolationLevel :=
| LevelDefault | LevelReadUncommitted | LevelReadCommitted | LevelWriteCommitted
| LevelRepeatableRead | LevelSnapshot | LevelSerializable | LevelLinearizable.

Record TxOptions := mkTxOptions {
  Isolation : IsolationLevel;
  ReadOnly : bool;
}.

(** What [conn.Raw] hands to its callback. *)
Inductive driverConn :=
| StdlibConn (pc : pgconn)      (* a [*stdlib.Conn] wrapping the pgx connection *)
| ForeignConn.                  (* a connection of another driver *)

Inductive panic :=
| PanicIndexOutOfRange (i len : nat)
| PanicTypeAssertion
| PanicNilDereference.

#[global] Instance Command_eq_dec : EqDecision Command.
Proof. solve_decision. Defined.
#[global] Instance command_eq_dec : EqDecision command.
Proof. solve_decision. Defined.
#[global] Instance event_eq_dec : EqDecision event.
Proof. solve_decision. Defined.
#[global] Instance Event_eq_dec : EqDecision Event.
Proof. solve_decision. Defined.
#[global] Instance row_eq_dec : EqDecision row.
Proof. solve_decision. Defined.
#[global] Instance assigned_eq_dec : EqDecision assigned.
Proof. solve_decision. Defined.
#[global] Instance Rows_eq_dec : EqDecision Rows.
Proof. solve_decision. Defined.
#[global] Instance IsolationLevel_eq_dec : EqDecision IsolationLevel.
Proof. solve_decision. Defined.
#[global] Instance TxOptions_eq_dec : EqDecision TxOptions.
Proof. solve_decision. Defined.
#[global] Instance driverConn_eq_dec : EqDecision driverConn.
Proof. solve_decision. Defined.
#[global] Instance panic_eq_dec : EqDecision panic.
Proof. solve_decision. Defined.

(** ** The trace *)

(** Every call leaving the package, with its arguments and its result. *)
Inductive Op :=
| OpSpanStart
| OpSpanEnd (err : option error)
| OpConn (r : error + conn)
| OpConnClose (c : conn)
| OpRaw (c : conn) (r : error + driverConn)
| OpTypeForValue (pc : pgconn) (ok : bool)
| OpRegisterTypes (pc : pgconn) (err : option error)
| OpBeginTx (c : conn) (opts : TxOptions) (r : error + tx)
| OpCommandsToEvents (cmds : list Command) (r : error + list Event * list command)
| OpQuery (t : tx) (stmt : string) (args : list command) (r : error + Rows)
| OpScan (i : nat) (err : option error)
| OpRowsErr (err : option error)
| OpRowsClose
| OpUniqueConstraints (t : tx) (cmds : list Command) (err : option error)
| OpExec (t : tx) (query : string) (err : option error)
| OpFieldCommands (t : tx) (cmds : list Command) (err : option error)
| OpRollback (t : tx) (err : option error)
| OpCommit (t : tx) (err : option error)
| OpWarn (msg : string) (err : error)
| OpPushWithoutFunc (cmds : list Command) (err : option error).

#[global] Instance Op_eq_dec : EqDecision Op.
Proof. solve_decision. Defined.

(** ** The store and the computations *)

(** The database world [W] is whatever the backend is; the heap holds the
    [event] objects the slices point to. *)
Record state (W : Type) := mkstate {
  world : W;
  heap : gmap ptr event;
}.
Arguments mkstate {W} _ _.
Arguments world {W} _.
Arguments heap {W} _.

Inductive outcome (A : Type) :=
| Ret (a : A)
| Panic (p : panic).
Arguments Ret {A} _.
Arguments Panic {A} _.

(** A computation: from a store to an outcome, the store left behind and the
    calls made. *)
Definition M (W A : Type) : Type := state W → outcome A * state W * list Op.

Definition ret {W A} (a : A) : M W A := λ s, (Ret a, s, []).

Definition bind {W A B} (m : M W A) (f : A → M W B) : M W B :=
  λ s, match m s with
       | (Ret a, s1, o1) => let '(r, s2, o2) := f a s1 in (r, s2, o1 ++ o2)
       | (Panic p, s1, o1) => (Panic p, s1, o1)
       end.

Definition raise {W A} (p : panic) : M W A := λ s, (Panic p, s, []).

Definition emit {W} (o : Op) : M W unit := λ s, (Ret tt, s, [o]).

Declare Scope go_scope.
Delimit Scope go_scope with go.
Notation "x <- m ;; k" := (bind m (λ x, k))
  (at level 100, m at next level, k at level 200, right associativity) : go_scope.
Notation "m ;; k" := (bind m (λ _, k))
  (at level 100, k at level 200, right associativity) : go_scope.
Local Open Scope go_scope.

(** [defer] of a closure over the named result [err]: the closure runs when
    the body returns, on the [err] being returned, and may replace it; when
    the body panics the closure runs as well (on the value [err] holds then,
    which is [nil] at each place this package can panic: see
    [Eventstore_writeEvents]) and the panic goes on. *)
Definition defer {W A} (d : option error → M W (option error))
    (body : M W (A * option error)) : M W (A * option error) :=
  λ s, match body s with
       | (Ret (a, err), s1, o1) =>
           match d err s1 with
           | (Ret err', s2, o2) => (Ret (a, err'), s2, o1 ++ o2)
           | (Panic p, s2, o2) => (Panic p, s2, o1 ++ o2)
           end
       | (Panic p, s1, o1) =>
           let '(_, s2, o2) := d None s1 in (Panic p, s2, o1 ++ o2)
       end.

(** ** What the package calls *)

(** The database client [es.client], the [database/sql] and pgx objects
    reached through it, and the functions of the package that are defined in
    other files.  Each is given by its result and its effect on the store. *)
Record Env (W : Type) := mkEnv {
  (* es.client.Conn(ctx) *)
  client_Conn : W → (error + conn) * W;
  (* es.client.Type() *)
  client_Type : string;
  (* conn.Close(); its error is dropped by the defer *)
  conn_Close : conn → W → W;
  (* conn.Raw: the driver connection handed to the callback, or the error
     with which Raw returns without calling it; it only reads the world *)
  conn_Raw : conn → W → error + driverConn;
  (* conn.TypeMap().TypeForValue(cmd) for cmd of type *command: is the
     composite type registered on this connection *)
  typeMap_TypeForValue : pgconn → W → bool;
  (* registerEventstoreTypes(ctx, conn) *)
  registerEventstoreTypes : pgconn → W → option error * W;
  (* conn.BeginTx(ctx, opts) *)
  conn_BeginTx : conn → TxOptions → W → (error + tx) * W;
  (* commandsToEvents(ctx, commands) *)
  commandsToEvents :
    list Command → gmap ptr event → (error + list Event * list command) * gmap ptr event;
  (* the embedded statement push2.sql *)
  push2Stmt : string;
  (* tx.QueryContext(ctx, stmt, cmds) *)
  tx_QueryContext : tx → string → list command → W → (error + Rows) * W;
  (* handleUniqueConstraints(ctx, tx, commands) *)
  handleUniqueConstraints : tx → list Command → W → option error * W;
  (* tx.Exec(query) *)
  tx_Exec : tx → string → W → option error * W;
  (* handleFieldCommands(ctx, tx, commands) *)
  handleFieldCommands : tx → list Command → W → option error * W;
  tx_Rollback : tx → W → option error * W;
  tx_Commit : tx → W → option error * W;
  (* es.pushWithoutFunc(ctx, commands...) *)
  pushWithoutFunc : list Command → state W → (list Event * option error) * state W;
  isSetupNotExecutedError : option error → bool;
}.
Arguments client_Conn {W} _ _.
Arguments client_Type {W} _.
Arguments conn_Close {W} _ _ _.
Arguments conn_Raw {W} _ _ _.
Arguments typeMap_TypeForValue {W} _ _ _.
Arguments registerEventstoreTypes {W} _ _ _.
Arguments conn_BeginTx {W} _ _ _ _.
Arguments commandsToEvents {W} _ _ _.
Arguments push2Stmt {W} _.
Arguments tx_QueryContext {W} _ _ _ _ _.
Arguments handleUniqueConstraints {W} _ _ _ _.
Arguments tx_Exec {W} _ _ _ _.
Arguments handleFieldCommands {W} _ _ _ _.
Arguments tx_Rollback {W} _ _ _.
Arguments tx_Commit {W} _ _ _.
Arguments pushWithoutFunc {W} _ _ _.
Arguments isSetupNotExecutedError {W} _ _.

(** The statement of the accommodation for CockroachDB. *)
Definition enableMultipleModifications : string :=
  "SET enable_multiple_modifications_of_table = on".

(** [rows.Scan(&e.createdAt, &e.sequence, &e.position)] on the event at [p]. *)
Definition scan_into (r : row) (e : event) : event :=
  {| ev_command := ev_command e;
     createdAt := row_createdAt r;
     sequence := row_sequence r;
     position := row_position r |}.

(** The same call when it fails, after the columns [a]. *)
Definition scan_partly (a : assigned) (e : event) : event :=
  match a with
  | NoColumn => e
  | UpToCreatedAt c =>
      {| ev_command := ev_command e; createdAt := c;
         sequence := sequence e; position := position e |}
  | UpToSequence c q =>
      {| ev_command := ev_command e; createdAt := c;
         sequence := q; position := position e |}
  end.

Section Program.
Context {W : Type} (E : Env W).

(** *** The calls, recorded *)

(** A call that changes the world and yields [a]; [op a] goes in the trace. *)
Definition call {A} (f : W → A * W) (op : A → Op) : M W A :=
  λ s, let '(a, w) := f (world s) in (Ret a, mkstate w (heap s), [op a]).

(** A call that only reads the world. *)
Definition observe {A} (f : W → A) (op : A → Op) : M W A :=
  λ s, (Ret (f (world s)), s, [op (f (world s))]).

Definition acquire : M W (error + conn) :=
  call (client_Conn E) OpConn.
Definition connClose (c : conn) : M W unit :=
  call (λ w, (tt, conn_Close E c w)) (λ _, OpConnClose c).
Definition raw (c : conn) : M W (error + driverConn) :=
  observe (conn_Raw E c) (OpRaw c).
Definition typeForValue (pc : pgconn) : M W bool :=
  observe (typeMap_TypeForValue E pc) (OpTypeForValue pc).
Definition registerTypes (pc : pgconn) : M W (option error) :=
  call (registerEventstoreTypes E pc) (OpRegisterTypes pc).
Definition beginTx (c : conn) (opts : TxOptions) : M W (error + tx) :=
  call (conn_BeginTx E c opts) (OpBeginTx c opts).
Definition query (t : tx) (stmt : string) (args : list command) : M W (error + Rows) :=
  call (tx_QueryContext E t stmt args) (OpQuery t stmt args).
Definition uniqueConstraints (t : tx) (cmds : list Command) : M W (option error) :=
  call (handleUniqueConstraints E t cmds) (OpUniqueConstraints t cmds).
Definition exec (t : tx) (q : string) : M W (option error) :=
  call (tx_Exec E t q) (OpExec t q).
Definition fieldCommands (t : tx) (cmds : list Command) : M W (option error) :=
  call (handleFieldCommands E t cmds) (OpFieldCommands t cmds).
Definition rollback (t : tx) : M W (option error) :=
  call (tx_Rollback E t) (OpRollback t).
Definition commit (t : tx) : M W (option error) :=
  call (tx_Commit E t) (OpCommit t).
Definition rowsErr (rows : Rows) : M W (option error) :=
  observe (λ _, rows_Err rows) OpRowsErr.
Definition warn (msg : string) (e : error) : M W unit :=
  emit (OpWarn msg e).

Definition translate (cmds : list Command) : M W (error + list Event * list command) :=
  λ s, let '(r, h) := commandsToEvents E cmds (heap s) in
       (Ret r, mkstate (world s) h, [OpCommandsToEvents cmds r]).

Definition fallback (cmds : list Command) : M W (list Event * option error) :=
  λ s, let '(r, s') := pushWithoutFunc E cmds s in
       (Ret r, s', [OpPushWithoutFunc cmds (snd r)]).

(** The write of one scanned row through the three field addresses. *)
Definition store_row (p : ptr) (r : row) : M W unit :=
  λ s, (Ret tt, mkstate (world s) (alter (scan_into r) p (heap s)), []).
Definition store_columns (p : ptr) (a : assigned) : M W unit :=
  λ s, (Ret tt, mkstate (world s) (alter (scan_partly a) p (heap s)), []).

(** *** checkExecutionPlan *)

Definition checkExecutionPlan (c : conn) : M W (option error) :=
  r <- raw c ;;
  match r with
  | inl e => ret (Some e)
  | inr (StdlibConn pc) =>
      ok <- typeForValue pc ;;
      if ok then ret None else registerTypes pc
  | inr ForeignConn => raise PanicTypeAssertion
  end.

(** *** writeEvents (the function) *)

(** The loop [for i := 0; rows.Next(); i++]: [items] are the rows [Next]
    still has.  The three arguments of [Scan] are evaluated first:
    [events[i]] (bounds check), the assertion to [*event] and the field
    addresses (nil check); then [Scan] runs.  The loop yields the error it
    returns with, [None] when [Next] has returned false. *)
Fixpoint scanRows (items : list (error * assigned + row)) (i : nat)
    (events : list Event)
    : M W (option error) :=
  match items with
  | [] => ret None
  | item :: rest =>
      match events !! i with
      | None => raise (PanicIndexOutOfRange i (length events))
      | Some (EventPtr (Some p)) =>
          match item with
          | inr r =>
              store_row p r ;;
              emit (OpScan i None) ;;
              scanRows rest (S i) events
          | inl (e, a) =>
              store_columns p a ;;
              emit (OpScan i (Some e)) ;;
              warn "failed to scan events" e ;;
              ret (Some e)
          end
      | Some (EventPtr None) => raise PanicNilDereference
      | Some _ => raise PanicTypeAssertion
      end
  end.

Definition spanEnd (err : option error) : M W (option error) :=
  emit (OpSpanEnd err) ;; ret err.

Definition rowsClose (err : option error) : M W (option error) :=
  emit OpRowsClose ;; ret err.

Definition writeEvents (t : tx) (commands : list Command)
    : M W (list Event * option error) :=
  emit OpSpanStart ;;
  defer spanEnd (
    r <- translate commands ;;
    match r with
    | inl e => ret ([], Some e)
    | inr (events, cmds) =>
        r <- query t (push2Stmt E) cmds ;;
        match r with
        | inl e => ret ([], Some e)
        | inr rows =>
            defer rowsClose (
              err <- scanRows (rows_items rows) 0 events ;;
              match err with
              | Some e => ret ([], Some e)
              | None =>
                  err <- rowsErr rows ;;
                  match err with
                  | Some e => ret ([], Some e)
                  | None => ret (events, None)
                  end
              end)
        end
    end).

(** *** writeEvents (the method of Eventstore) *)

(** The deferred closure of the method: roll back on an error, commit
    otherwise, the result of [Commit] being assigned to the named result. *)
Definition txDeferred (t : tx) (err : option error) : M W (option error) :=
  match err with
  | Some e => rollback t ;; ret (Some e)
  | None =>
      err <- commit t ;;
      match err with
      | Some e => warn "failed to commit transaction" e ;; ret (Some e)
      | None => ret None
      end
  end.

Definition connClosed (c : conn) (err : option error) : M W (option error) :=
  connClose c ;; ret err.

(** The statements after the deferred closure is registered.  The only call
    that can panic is the row scan of [writeEvents], before its result is
    assigned: [err] is then still the [nil] of [BeginTx]. *)
Definition txBody (t : tx) (commands : list Command)
    : M W (list Event * option error) :=
  r <- writeEvents t commands ;;
  let '(events, err) := r in
  match err with
  | Some e => ret ([], Some e)
  | None =>
      err <- uniqueConstraints t commands ;;
      match err with
      | Some e => ret ([], Some e)
      | None =>
          err <- (if decide (client_Type E = "cockroach")
                 then exec t enableMultipleModifications
                 else ret None) ;;
          match err with
          | Some e => ret ([], Some e)
          | None =>
              err <- fieldCommands t commands ;;
              match err with
              | Some e => ret ([], Some e)
              | None => ret (events, None)
              end
          end
      end
  end.

(** The transaction: the statements run under the deferred closure. *)
Definition transaction (t : tx) (commands : list Command)
    : M W (list Event * option error) :=
  defer (txDeferred t) (txBody t commands).

Definition readCommittedRW : TxOptions :=
  {| Isolation := LevelReadCommitted; ReadOnly := false |}.

Definition Eventstore_writeEvents (commands : list Command)
    : M W (list Event * option error) :=
  r <- acquire ;;
  match r with
  | inl e => ret ([], Some e)
  | inr c =>
      defer (connClosed c) (
        err <- checkExecutionPlan c ;;
        match err with
        | Some e => ret ([], Some e)
        | None =>
            r <- beginTx c readCommittedRW ;;
            match r with
            | inl e => ret ([], Some e)
            | inr t => transaction t commands
            end
        end)
  end.

(** *** Push *)

Definition Push (commands : list Command) : M W (list Event * option error) :=
  emit OpSpanStart ;;
  defer spanEnd (
    r <- Eventstore_writeEvents commands ;;
    let '(events, err) := r in
    if isSetupNotExecutedError E err
    then fallback commands
    else ret (events, err)).

End Program.

Arguments checkExecutionPlan : simpl never.
Arguments writeEvents : simpl never.
Arguments txDeferred : simpl never.
Arguments txBody : simpl never.
Arguments transaction : simpl never.
Arguments Eventstore_writeEvents : simpl never.
Arguments Push : simpl never.

(** ** A backend to run the package on *)

Module Sim.

(** The world of the simulated backend: the connections whose type map has
    the composite type, the last position handed out, the rows written in
    the open transaction and the rows committed. *)
Record world := mkworld {
  registered : list pgconn;
  clock : Z;
  pending : list row;
  durable : list row;
}.

(** The errors the backend is told to answer with, and its dialect. *)
Record faults := mkfaults {
  f_type : string;
  f_driver : driverConn;
  f_conn : option error;
  f_raw : option error;
  f_register : option error;
  f_begin : option error;
  f_translate : option error;
  f_query : option error;
  f_rows : option Rows;          (* when set, the rows the bulk insert answers *)
  f_unique : option error;
  f_exec : option error;
  f_field : option error;
  f_rollback : option error;
  f_commit : option error;
  f_fallback : option error;
}.

Definition healthy : faults :=
  {| f_type := "postgres"; f_driver := StdlibConn 7;
     f_conn := None; f_raw := None; f_register := None; f_begin := None;
     f_translate := None; f_query := None; f_rows := None; f_unique := None;
     f_exec := None; f_field := None; f_rollback := None; f_commit := None;
     f_fallback := None |}.

Definition commit_fails : faults :=
  {| f_type := "postgres"; f_driver := StdlibConn 7;
     f_conn := None; f_raw := None; f_register := None; f_begin := None;
     f_translate := None; f_query := None; f_rows := None; f_unique := None;
     f_exec := None; f_field := None; f_rollback := None;
     f_commit := Some "commit failed"; f_fallback := None |}.

Definition unique_fails : faults :=
  {| f_type := "postgres"; f_driver := StdlibConn 7;
     f_conn := None; f_raw := None; f_register := None; f_begin := None;
     f_translate := None; f_query := None; f_rows := None;
     f_unique := Some "unique constraint violated";
     f_exec := None; f_field := None;
     f_rollback := Some "rollback failed"; f_commit := None;
     f_fallback := None |}.

Definition begin_fails : faults :=
  {| f_type := "postgres"; f_driver := StdlibConn 7;
     f_conn := None; f_raw := None; f_register := None;
     f_begin := Some "too many connections";
     f_translate := None; f_query := None; f_rows := None; f_unique := None;
     f_exec := None; f_field := None; f_rollback := None; f_commit := None;
     f_fallback := None |}.

Definition cockroach : faults :=
  {| f_type := "cockroach"; f_driver := StdlibConn 7;
     f_conn := None; f_raw := None; f_register := None; f_begin := None;
     f_translate := None; f_query := None; f_rows := None; f_unique := None;
     f_exec := None; f_field := None; f_rollback := None; f_commit := None;
     f_fallback := None |}.

Definition not_set_up : faults :=
  {| f_type := "postgres"; f_driver := StdlibConn 7;
     f_conn := None; f_raw := None; f_register := None; f_begin := None;
     f_translate := None; f_query := Some "setup not executed";
     f_rows := None; f_unique := None;
     f_exec := None; f_field := None; f_rollback := None; f_commit := None;
     f_fallback := None |}.

Definition too_many_rows : faults :=
  {| f_type := "postgres"; f_driver := StdlibConn 7;
     f_conn := None; f_raw := None; f_register := None; f_begin := None;
     f_translate := None; f_query := None;
     f_rows := Some (mkRows [inr (mkrow 1000 1 1); inr (mkrow 1000 2 2)] None);
     f_unique := None;
     f_exec := None; f_field := None; f_rollback := None; f_commit := None;
     f_fallback := None |}.

Definition answer {A} (f : option error) (a : A) : error + A :=
  match f with Some e => inl e | None => inr a end.

(** Modelled from the spec: the translator [commandsToEvents], defined in
    another file of the package (§4.1): one fresh placeholder per command,
    ordering fields unset, in the order of the commands, and the payload
    of the bulk insert. *)
Fixpoint placeholders (cmds : list Command) (h : gmap ptr event)
    : list Event * list command * gmap ptr event :=
  match cmds with
  | [] => ([], [], h)
  | c :: rest =>
      let p := fresh (dom h) in
      let e := {| ev_command := mkcommand c; createdAt := 0%Z;
                  sequence := 0%N; position := 0%Z |} in
      let '(evs, payload, h') := placeholders rest (<[p := e]> h) in
      (EventPtr (Some p) :: evs, mkcommand c :: payload, h')
  end.

(** Modelled from the spec: the statement [push2.sql], not part of this
    file (§6, backend wire contract): one result row per input command, in
    input order, each with creation timestamp, sequence and position. *)
Fixpoint insert_rows (args : list command) (now : Z) : list row :=
  match args with
  | [] => []
  | _ :: rest =>
      {| row_createdAt := 1000; row_sequence := Z.to_N (now + 1);
         row_position := now + 1 |} :: insert_rows rest (now + 1)
  end.

Definition env (f : faults) : Env world :=
  {| client_Conn := λ w, (answer (f_conn f) 1, w);
     client_Type := f_type f;
     conn_Close := λ _ w, w;
     conn_Raw := λ _ _, answer (f_raw f) (f_driver f);
     typeMap_TypeForValue := λ pc w, bool_decide (pc ∈ registered w);
     registerEventstoreTypes := λ pc w,
       match f_register f with
       | Some e => (Some e, w)
       | None => (None, mkworld (pc :: registered w) (clock w) (pending w) (durable w))
       end;
     conn_BeginTx := λ _ _ w, (answer (f_begin f) 2, w);
     commandsToEvents := λ cmds h,
       match f_translate f with
       | Some e => (inl e, h)
       | None => let '(evs, payload, h') := placeholders cmds h in (inr (evs, payload), h')
       end;
     push2Stmt := "push2.sql";
     tx_QueryContext := λ _ _ args w,
       match f_query f with
       | Some e => (inl e, w)
       | None =>
           let rs := insert_rows args (clock w) in
           (inr (default (mkRows (inr <$> rs) None) (f_rows f)),
            mkworld (registered w) (clock w + Z.of_nat (length args)) rs (durable w))
       end;
     handleUniqueConstraints := λ _ _ w, (f_unique f, w);
     tx_Exec := λ _ _ w, (f_exec f, w);
     handleFieldCommands := λ _ _ w, (f_field f, w);
     tx_Rollback := λ _ w,
       (f_rollback f, mkworld (registered w) (clock w) [] (durable w));
     tx_Commit := λ _ w,
       match f_commit f with
       | Some e => (Some e, w)
       | None => (None, mkworld (registered w) (clock w) [] (durable w ++ pending w))
       end;
     pushWithoutFunc := λ _ s, (([], f_fallback f), s);
     isSetupNotExecutedError := λ err, bool_decide (err = Some "setup not executed");
  |}.

Definition fresh_world : world :=
  {| registered := []; clock := 0; pending := []; durable := [] |}.

Definition start : state world := mkstate fresh_world ∅.

Definition cmd1 : Command := mkCommand "user-1" "user" "user.added" "{}".
Definition cmd2 : Command := mkCommand "user-2" "user" "user.added" "{}".

End Sim.

Definition result_of {W A} (r : outcome A * state W * list Op) : outcome A := r.1.1.
Definition state_of {W A} (r : outcome A * state W * list Op) : state W := r.1.2.
Definition ops_of {W A} (r : outcome A * state W * list Op) : list Op := r.2.


(** ** Reading traces *)

(** Equality of two runs of which the traces are bracketed differently. *)
Ltac trace_eq :=
  repeat (progress (simpl; rewrite ?app_nil_r, <-?app_assoc)); done.

(** The steps of the transaction (batched insert, unique constraints, backend
    accommodation, field projection) and the error a step ended with. *)
Definition step_failed (e : error) (o : Op) : Prop :=
  match o with
  | OpCommandsToEvents _ (inl e') | OpQuery _ _ _ (inl e') => e' = e
  | OpScan _ (Some e') | OpRowsErr (Some e') => e' = e
  | OpUniqueConstraints _ _ (Some e') | OpExec _ _ (Some e')
  | OpFieldCommands _ _ (Some e') => e' = e
  | _ => False
  end.


Definition scan_op (o : Op) : Prop :=
  match o with
  | OpScan _ _ | OpWarn "failed to scan events" _ => True
  | _ => False
  end.

(** The calls of the capability probe. *)
Definition probe_op (o : Op) : Prop :=
  match o with
  | OpRaw _ _ | OpTypeForValue _ _ | OpRegisterTypes _ _ => True
  | _ => False
  end.

(** The calls made between [BeginTx] and the return of the deferred closure. *)
Definition tx_op (o : Op) : Prop :=
  match o with
  | OpSpanStart | OpSpanEnd _ | OpCommandsToEvents _ _ | OpQuery _ _ _ _
  | OpScan _ _ | OpRowsErr _ | OpRowsClose
  | OpUniqueConstraints _ _ _ | OpExec _ _ _ | OpFieldCommands _ _ _
  | OpRollback _ _ | OpCommit _ _ | OpWarn _ _ => True
  | _ => False
  end.

Definition begin_op (o : Op) : Prop :=
  match o with OpBeginTx _ _ _ => True | _ => False end.
Definition unique_op (o : Op) : Prop :=
  match o with OpUniqueConstraints _ _ _ => True | _ => False end.
Definition exec_op (o : Op) : Prop :=
  match o with OpExec _ _ _ => True | _ => False end.
Definition field_op (o : Op) : Prop :=
  match o with OpFieldCommands _ _ _ => True | _ => False end.
Definition end_op (o : Op) : Prop :=
  match o with OpCommit _ _ | OpRollback _ _ => True | _ => False end.
Definition fallback_op (o : Op) : Prop :=
  match o with OpPushWithoutFunc _ _ => True | _ => False end.

(** Every call satisfying [P] is made before every call satisfying [Q]. *)
Definition all_before (P Q : Op → Prop) (ops : list Op) : Prop :=
  ∀ i j a b, ops !! i = Some a → ops !! j = Some b → P a → Q b → i < j.

(** Every row the bulk insert answered is a row that scanned, and the event
    at its index holds its three values. *)
Definition populated (ops : list Op) (events : list Event) (h : gmap ptr event)
    : Prop :=
  ∀ t stmt args rows k item,
    OpQuery t stmt args (inr rows) ∈ ops →
    rows_items rows !! k = Some item →
    ∃ r p, item = inr r ∧ events !! k = Some (EventPtr (Some p)) ∧
      ∀ ev, h !! p = Some ev →
        createdAt ev = row_createdAt r ∧ sequence ev = row_sequence r ∧
        position ev = row_position r.

(** No two slots of the slice hold the same event object. *)
Definition distinct_events (events : list Event) : Prop :=
  ∀ i j p, events !! i = Some (EventPtr (Some p)) →
           events !! j = Some (EventPtr (Some p)) → i = j.

(** The calls after the batched insert: unique constraints, the
    accommodation on CockroachDB, field projection; [None] when all went
    through. *)
Definition steps_run {W} (E : Env W) (t : tx) (cmds : list Command) (w : W)
    : option error * W * list Op :=
  let '(eu, w2) := handleUniqueConstraints E t cmds w in
  match eu with
  | Some e => (Some e, w2, [OpUniqueConstraints t cmds eu])
  | None =>
      if decide (client_Type E = "cockroach") then
        let '(ee, w3) := tx_Exec E t enableMultipleModifications w2 in
        match ee with
        | Some e =>
            (Some e, w3,
             [OpUniqueConstraints t cmds eu; OpExec t enableMultipleModifications ee])
        | None =>
            let '(ef, w4) := handleFieldCommands E t cmds w3 in
            (ef, w4,
             [OpUniqueConstraints t cmds eu; OpExec t enableMultipleModifications ee;
              OpFieldCommands t cmds ef])
        end
      else
        let '(ef, w4) := handleFieldCommands E t cmds w2 in
        (ef, w4, [OpUniqueConstraints t cmds eu; OpFieldCommands t cmds ef])
  end.

(** The state [conn.Close] leaves. *)
Definition closed {W} (E : Env W) (c : conn) (s : state W) : state W :=
  mkstate (conn_Close E c (world s)) (heap s).

(** ** The contracts of what is not in this file *)

(** Modelled from the spec: [registerEventstoreTypes], defined in another
    file of the package (§4.4, "perform one-time registration of the required
    types ... then mark it capable"): a registration that succeeds leaves the
    composite type in the type map of the connection. *)
Definition registers {W} (E : Env W) : Prop :=
  ∀ pc w w', registerEventstoreTypes E pc w = (None, w') →
             typeMap_TypeForValue E pc w' = true.

(** Modelled from the spec: the contract of the translator
    [commandsToEvents], defined in another file of the package (§4.1): the
    event sequence has the length and the order of the commands, one
    placeholder of its own per command, carrying it; the payload encodes all
    the commands. *)
Definition translates {W} (E : Env W) : Prop :=
  ∀ cmds h events payload h',
    commandsToEvents E cmds h = (inr (events, payload), h') →
    length events = length cmds ∧ length payload = length cmds ∧
    distinct_events events ∧
    ∀ i c, cmds !! i = Some c →
      ∃ p ev, events !! i = Some (EventPtr (Some p)) ∧ h' !! p = Some ev ∧
              ev_command ev = mkcommand c.

(** Modelled from the spec: the contract of the statement [push2.sql], which
    is not part of this file (§6, backend wire contract; §4.2, guarantee):
    one result row per input command, in input order, the position strictly
    increasing within the batch. *)
Definition inserts {W} (E : Env W) : Prop :=
  ∀ t args w rows w',
    tx_QueryContext E t (push2Stmt E) args w = (inr rows, w') →
    length (rows_items rows) = length args ∧
    ∀ i j ri rj, i < j →
      rows_items rows !! i = Some (inr ri) →
      rows_items rows !! j = Some (inr rj) →
      (row_position ri < row_position rj)%Z.

(** ** The statements of the spec that the code does not keep *)

(** C1 as the spec has it: the error of the failed commit is logged and
    swallowed, [Push] returning no error. *)
Definition commit_error_swallowed {W} (E : Env W) cmds s : Prop :=
  ∀ t e,
    OpFieldCommands t cmds None ∈ ops_of (Push E cmds s) →
    OpCommit t (Some e) ∈ ops_of (Push E cmds s) →
    OpWarn "failed to commit transaction" e ∈ ops_of (Push E cmds s) ∧
    ∃ events, result_of (Push E cmds s) = Ret (events, None).

(** C2 as the spec has it: the empty batch is answered with no event and no
    error, the bulk-insert statement not being executed. *)
Definition empty_batch_short_circuits {W} (E : Env W) s : Prop :=
  result_of (Push E [] s) = Ret ([], None) ∧
  ∀ t stmt args rq, OpQuery t stmt args rq ∉ ops_of (Push E [] s).

#[global] Instance fallback_op_dec o : Decision (fallback_op o).
Proof. destruct o; simpl; apply _. Defined.

(** ** The row scan *)

Section Scan.
Context {W : Type} (E : Env W).
Implicit Types (items : list (error * assigned + row)) (events : list Event) (s : state W).

Lemma scanRows_nil i events s :
  scanRows (W:=W) [] i events s = (Ret None, s, []).
Proof. reflexivity. Qed.

(** The five ways one turn of the loop goes. *)
Lemma scanRows_out_of_range item rest i events s :
  events !! i = None →
  scanRows (item :: rest) i events s
  = (Panic (PanicIndexOutOfRange i (length events)), s, []).
Proof. intros H. simpl. by rewrite H. Qed.

Lemma scanRows_not_event item rest i events s ev :
  events !! i = Some ev → (∀ p, ev ≠ EventPtr p) →
  scanRows (item :: rest) i events s = (Panic PanicTypeAssertion, s, []).
Proof.
  intros H Hne. simpl. rewrite H.
  destruct ev as [|p|tag]; [done| |done]. by destruct (Hne p).
Qed.

Lemma scanRows_nil_event item rest i events s :
  events !! i = Some (EventPtr None) →
  scanRows (item :: rest) i events s = (Panic PanicNilDereference, s, []).
Proof. intros H. simpl. by rewrite H. Qed.

Lemma scanRows_scan_fails e a rest i events s p :
  events !! i = Some (EventPtr (Some p)) →
  scanRows (inl (e, a) :: rest) i events s
  = (Ret (Some e), mkstate (world s) (alter (scan_partly a) p (heap s)),
     [OpScan i (Some e); OpWarn "failed to scan events" e]).
Proof. intros H. simpl. by rewrite H. Qed.

Lemma scanRows_scan_ok r rest i events s p :
  events !! i = Some (EventPtr (Some p)) →
  scanRows (inr r :: rest) i events s
  = let '(res, s', ops) :=
      scanRows rest (S i) events
        (mkstate (world s) (alter (scan_into r) p (heap s))) in
    (res, s', OpScan i None :: ops).
Proof.
  intros H. simpl. rewrite H. unfold bind, store_row, emit. simpl.
  by destruct (scanRows rest (S i) events _) as [[[a|q] s'] ops].
Qed.

(** Case analysis on one turn of a run [H] of the loop: the turns that end
    the loop are handed to [tac], the turn that goes on is left, with the
    run of the rest of the loop named [Hrest]. *)
Ltac scan_turn H Hrest :=
  match type of H with
  | scanRows (?item :: ?rest) ?i ?events ?s = _ =>
      let Hev := fresh "Hev" in
      destruct (events !! i) as [[|[?p|]|?tag]|] eqn:Hev;
      [ rewrite (scanRows_not_event _ _ _ _ _ _ Hev) in H by done
      | destruct item as [[?e ?a]|?r];
        [ rewrite (scanRows_scan_fails _ _ _ _ _ _ _ Hev) in H
        | rewrite (scanRows_scan_ok _ _ _ _ _ _ Hev) in H;
          destruct (scanRows rest (S i) events _) as [[? ?] ?] eqn:Hrest ]
      | rewrite (scanRows_nil_event _ _ _ _ _ Hev) in H
      | rewrite (scanRows_not_event _ _ _ _ _ _ Hev) in H by done
      | rewrite (scanRows_out_of_range _ _ _ _ _ Hev) in H ];
      simplify_eq
  end.

(** The scan leaves the database alone. *)
Lemma scanRows_world items : ∀ i events s res s' ops,
  scanRows items i events s = (res, s', ops) → world s' = world s.
Proof.
  induction items as [|item rest IH]; intros i events s res s' ops H.
  { rewrite scanRows_nil in H. by simplify_eq. }
  scan_turn H Hrest; try done.
  by apply IH in Hrest.
Qed.

(** It makes no call but [Scan] and the warning of a failed scan. *)
Lemma scanRows_ops items : ∀ i events s res s' ops,
  scanRows items i events s = (res, s', ops) → Forall scan_op ops.
Proof.
  induction items as [|item rest IH]; intros i events s res s' ops H.
  { rewrite scanRows_nil in H. simplify_eq. constructor. }
  scan_turn H Hrest; try by constructor.
  - by repeat constructor.
  - constructor; [done|]. by eapply IH.
Qed.

(** A scan that fails ends the loop with its error, and the loop ends with
    an error only so. *)
Lemma scanRows_failed items : ∀ i events s res s' ops j e,
  scanRows items i events s = (res, s', ops) →
  OpScan j (Some e) ∈ ops → res = Ret (Some e).
Proof.
  induction items as [|item rest IH]; intros i events s res s' ops j e H Hin.
  { rewrite scanRows_nil in H. simplify_eq. by apply elem_of_nil in Hin. }
  scan_turn H Hrest; try by apply elem_of_nil in Hin.
  - apply elem_of_cons in Hin as [Hin|Hin]; [by simplify_eq|].
    apply elem_of_cons in Hin as [Hin|Hin]; [done|by apply elem_of_nil in Hin].
  - apply elem_of_cons in Hin as [?|Hin]; [done|]. by eapply IH.
Qed.

Lemma scanRows_error items : ∀ i events s e s' ops,
  scanRows items i events s = (Ret (Some e), s', ops) →
  ∃ j, OpScan j (Some e) ∈ ops ∧ OpWarn "failed to scan events" e ∈ ops.
Proof.
  induction items as [|item rest IH]; intros i events s e s' ops H.
  { by rewrite scanRows_nil in H. }
  scan_turn H Hrest.
  - exists i. split; [by apply elem_of_cons; left|].
    apply elem_of_cons; right. by apply elem_of_cons; left.
  - destruct (IH _ _ _ _ _ _ Hrest) as (j & ? & ?).
    exists j. split; by apply elem_of_cons; right.
Qed.

(** When the loop runs to the end, every row was scanned, into the event
    at its index. *)
Lemma scanRows_done_rows items : ∀ i events s s' ops k item,
  scanRows items i events s = (Ret None, s', ops) →
  items !! k = Some item →
  ∃ r p, item = inr r ∧ events !! (i + k) = Some (EventPtr (Some p)).
Proof.
  induction items as [|item0 rest IH]; intros i events s s' ops k item H Hk.
  { done. }
  scan_turn H Hrest.
  destruct k as [|k]; simpl in Hk.
  - simplify_eq. exists r, p. by rewrite Nat.add_0_r.
  - destruct (IH _ _ _ _ _ _ _ Hrest Hk) as (r' & p' & ? & ?).
    exists r', p'. by replace (i + S k) with (S i + k) by lia.
Qed.

(** An event no scanned slot points to is left as it was. *)
Lemma scanRows_frame items : ∀ i events s res s' ops q,
  scanRows items i events s = (res, s', ops) →
  (∀ k, k < length items → events !! (i + k) ≠ Some (EventPtr (Some q))) →
  heap s' !! q = heap s !! q.
Proof.
  induction items as [|item rest IH]; intros i events s res s' ops q H Hq.
  { rewrite scanRows_nil in H. by simplify_eq. }
  scan_turn H Hrest; try done.
  { simpl. apply lookup_alter_ne. intros ->.
    apply (Hq 0); [simpl; lia|]. by rewrite Nat.add_0_r. }
  rewrite (IH _ _ _ _ _ _ q Hrest); simpl.
  - apply lookup_alter_ne. intros ->.
    apply (Hq 0); [simpl; lia|]. by rewrite Nat.add_0_r.
  - intros k Hk Hc. apply (Hq (S k)); [simpl; lia|].
    by replace (i + S k) with (S i + k) by lia.
Qed.

(** With no event object in two slots, the event at index [i + k] ends
    with the fields of row [k]. *)
Lemma scanRows_scattered items : ∀ i events s s' ops k r p,
  distinct_events events →
  scanRows items i events s = (Ret None, s', ops) →
  items !! k = Some (inr r) →
  events !! (i + k) = Some (EventPtr (Some p)) →
  heap s' !! p = scan_into r <$> heap s !! p.
Proof.
  induction items as [|item rest IH];
    intros i events s s' ops k r p Hd H Hk Hp.
  { done. }
  scan_turn H Hrest.
  destruct k as [|k]; simpl in Hk.
  - injection Hk as ->. rewrite Nat.add_0_r, Hev in Hp. injection Hp as ->.
    rewrite (scanRows_frame _ _ _ _ _ _ _ p Hrest); simpl.
    + by rewrite lookup_alter_eq.
    + intros k _ Hk. apply (Hd _ _ _ Hev) in Hk. lia.
  - replace (i + S k) with (S i + k) in Hp by lia.
    rewrite (IH _ _ _ _ _ _ _ _ Hd Hrest Hk Hp); simpl.
    rewrite lookup_alter_ne; [done|]. intros ->.
    apply (Hd _ _ _ Hev) in Hp. lia.
Qed.

(** The loop panics on an index only past the end of the slice, and on
    the type assertion only at a slot that holds no [*event]. *)
Lemma scanRows_index_panic items : ∀ i events s s' ops a n,
  scanRows items i events s = (Panic (PanicIndexOutOfRange a n), s', ops) →
  i ≤ a < i + length items ∧ events !! a = None ∧ n = length events.
Proof.
  induction items as [|item rest IH]; intros i events s s' ops a n H.
  { by rewrite scanRows_nil in H. }
  scan_turn H Hrest.
  - apply IH in Hrest as (? & ? & ?). simpl. split; [lia|done].
  - simpl. split; [lia|done].
Qed.

Lemma scanRows_assertion_panic items : ∀ i events s s' ops,
  scanRows items i events s = (Panic PanicTypeAssertion, s', ops) →
  ∃ a ev, i ≤ a < i + length items ∧ events !! a = Some ev ∧ ∀ p, ev ≠ EventPtr p.
Proof.
  induction items as [|item rest IH]; intros i events s s' ops H.
  { by rewrite scanRows_nil in H. }
  scan_turn H Hrest.
  - exists i, EventNil. simpl. split; [lia|done].
  - apply IH in Hrest as (a & ev & ? & ? & ?).
    exists a, ev. simpl. split; [lia|done].
  - exists i, (EventOther tag). simpl. split; [lia|done].
Qed.

End Scan.

(** ** The function writeEvents *)

Section Insert.
Context {W : Type} (E : Env W).
Implicit Types (s : state W) (cmds : list Command).

(** The paths of [writeEvents], one per way the function is left. *)
Lemma writeEvents_run t cmds s :
  writeEvents E t cmds s =
  let '(rt, h1) := commandsToEvents E cmds (heap s) in
  match rt with
  | inl e =>
      (Ret ([], Some e), mkstate (world s) h1,
       [OpSpanStart; OpCommandsToEvents cmds rt; OpSpanEnd (Some e)])
  | inr (events, payload) =>
      let '(rq, w1) := tx_QueryContext E t (push2Stmt E) payload (world s) in
      let called := [OpSpanStart; OpCommandsToEvents cmds rt;
                     OpQuery t (push2Stmt E) payload rq] in
      match rq with
      | inl e => (Ret ([], Some e), mkstate w1 h1, called ++ [OpSpanEnd (Some e)])
      | inr rows =>
          let '(rs, s2, scans) :=
            scanRows (rows_items rows) 0 events (mkstate w1 h1) in
          match rs with
          | Panic p =>
              (Panic p, s2, called ++ scans ++ [OpRowsClose; OpSpanEnd None])
          | Ret (Some e) =>
              (Ret ([], Some e), s2,
               called ++ scans ++ [OpRowsClose; OpSpanEnd (Some e)])
          | Ret None =>
              match rows_Err rows with
              | Some e =>
                  (Ret ([], Some e), s2,
                   called ++ scans
                     ++ [OpRowsErr (Some e); OpRowsClose; OpSpanEnd (Some e)])
              | None =>
                  (Ret (events, None), s2,
                   called ++ scans ++ [OpRowsErr None; OpRowsClose; OpSpanEnd None])
              end
          end
      end
  end.
Proof.
  unfold writeEvents, defer, bind, translate, query, rowsErr, call, observe,
    emit, ret, spanEnd, rowsClose, bind, emit, ret. simpl.
  destruct (commandsToEvents E cmds (heap s)) as [[e|[events payload]] h1];
    simpl; [done|].
  destruct (tx_QueryContext E t (push2Stmt E) payload (world s))
    as [[e|rows] w1]; simpl; [done|].
  destruct (scanRows (rows_items rows) 0 events _) as [[[[e|]|p] s2] scans];
    simpl; [| |].
  - trace_eq.
  - destruct (rows_Err rows); simpl; trace_eq.
  - trace_eq.
Qed.

End Insert.

(** ** The paths of the method writeEvents, of the probe and of Push *)

Section Paths.
Context {W : Type} (E : Env W).
Implicit Types (s : state W) (cmds : list Command).

Lemma checkExecutionPlan_run c s :
  checkExecutionPlan E c s =
  match conn_Raw E c (world s) with
  | inl e => (Ret (Some e), s, [OpRaw c (inl e)])
  | inr ForeignConn => (Panic PanicTypeAssertion, s, [OpRaw c (inr ForeignConn)])
  | inr (StdlibConn pc) =>
      if typeMap_TypeForValue E pc (world s)
      then (Ret None, s, [OpRaw c (inr (StdlibConn pc)); OpTypeForValue pc true])
      else
        let '(er, w2) := registerEventstoreTypes E pc (world s) in
        (Ret er, mkstate w2 (heap s),
         [OpRaw c (inr (StdlibConn pc)); OpTypeForValue pc false;
          OpRegisterTypes pc er])
  end.
Proof.
  unfold checkExecutionPlan, bind, raw, typeForValue, registerTypes, call,
    observe, raise, ret. simpl.
  destruct (conn_Raw E c (world s)) as [e|[pc|]]; simpl; [done| |done].
  destruct (typeMap_TypeForValue E pc (world s)); simpl; [done|].
  by destruct (registerEventstoreTypes E pc (world s)) as [er w2].
Qed.

Lemma txDeferred_run t err s :
  txDeferred E t err s =
  match err with
  | Some e =>
      let '(er, w) := tx_Rollback E t (world s) in
      (Ret (Some e), mkstate w (heap s), [OpRollback t er])
  | None =>
      let '(ec, w) := tx_Commit E t (world s) in
      (Ret ec, mkstate w (heap s),
       OpCommit t ec ::
       match ec with
       | Some e => [OpWarn "failed to commit transaction" e]
       | None => []
       end)
  end.
Proof.
  unfold txDeferred, bind, rollback, commit, warn, call, emit, ret.
  destruct err as [e|]; simpl.
  - by destruct (tx_Rollback E t (world s)) as [er w].
  - by destruct (tx_Commit E t (world s)) as [[e|] w].
Qed.

Lemma txBody_run t cmds s :
  txBody E t cmds s =
  let '(ri, s1, o1) := writeEvents E t cmds s in
  match ri with
  | Panic p => (Panic p, s1, o1)
  | Ret (_, Some e) => (Ret ([], Some e), s1, o1)
  | Ret (events, None) =>
      let '(err, w2, o2) := steps_run E t cmds (world s1) in
      (Ret (match err with Some _ => [] | None => events end, err),
       mkstate w2 (heap s1), o1 ++ o2)
  end.
Proof.
  unfold txBody, steps_run, bind at 1.
  destruct (writeEvents E t cmds s) as [[[[events [e|]]|p] s1] o1]; simpl;
    [by rewrite app_nil_r| |done].
  unfold bind, uniqueConstraints, exec, fieldCommands, call, ret. simpl.
  destruct (handleUniqueConstraints E t cmds (world s1)) as [[e|] w2]; simpl;
    [done|].
  destruct (decide (client_Type E = "cockroach")) as [Hc|Hc]; simpl.
  - destruct (tx_Exec E t enableMultipleModifications w2) as [[e|] w3]; simpl;
      [done|].
    by destruct (handleFieldCommands E t cmds w3) as [[e|] w4].
  - by destruct (handleFieldCommands E t cmds w2) as [[e|] w4].
Qed.

Lemma transaction_run t cmds s :
  transaction E t cmds s =
  let '(rt, s4, o4) := txBody E t cmds s in
  match rt with
  | Panic p =>
      let '(_, s5, o5) := txDeferred E t None s4 in (Panic p, s5, o4 ++ o5)
  | Ret (events, err) =>
      let '(rd, s5, o5) := txDeferred E t err s4 in
      (match rd with
       | Ret err' => Ret (events, err')
       | Panic p => Panic p
       end, s5, o4 ++ o5)
  end.
Proof.
  unfold transaction, defer.
  destruct (txBody E t cmds s) as [[[[events err]|p] s4] o4]; [|done].
  by destruct (txDeferred E t err s4) as [[[err'|p] s5] o5].
Qed.

Lemma Eventstore_writeEvents_run cmds s :
  Eventstore_writeEvents E cmds s =
  let '(rc, w1) := client_Conn E (world s) in
  match rc with
  | inl e => (Ret ([], Some e), mkstate w1 (heap s), [OpConn rc])
  | inr c =>
      let '(rp, s2, o2) := checkExecutionPlan E c (mkstate w1 (heap s)) in
      match rp with
      | Panic p => (Panic p, closed E c s2, OpConn rc :: o2 ++ [OpConnClose c])
      | Ret (Some e) =>
          (Ret ([], Some e), closed E c s2, OpConn rc :: o2 ++ [OpConnClose c])
      | Ret None =>
          let '(rb, w3) := conn_BeginTx E c readCommittedRW (world s2) in
          let begun := OpConn rc :: o2 ++ [OpBeginTx c readCommittedRW rb] in
          match rb with
          | inl e =>
              (Ret ([], Some e), closed E c (mkstate w3 (heap s2)),
               begun ++ [OpConnClose c])
          | inr t =>
              let '(rt, s4, o4) := transaction E t cmds (mkstate w3 (heap s2)) in
              (rt, closed E c s4, begun ++ o4 ++ [OpConnClose c])
          end
      end
  end.
Proof.
  unfold Eventstore_writeEvents, closed, bind at 1, acquire, call. simpl.
  destruct (client_Conn E (world s)) as [[e|c] w1]; simpl; [done|].
  unfold defer, bind at 1.
  destruct (checkExecutionPlan E c _) as [[[[e|]|p] s2] o2]; simpl.
  - unfold connClosed, connClose, bind, call, ret. trace_eq.
  - unfold bind at 1, beginTx, call. simpl.
    destruct (conn_BeginTx E c readCommittedRW (world s2)) as [[e|t] w3]; simpl.
    + unfold connClosed, connClose, bind, call, ret. trace_eq.
    + destruct (transaction E t cmds _) as [[[[events err]|p] s4] o4]; simpl;
        unfold connClosed, connClose, bind, call, ret; trace_eq.
  - unfold connClosed, connClose, bind, call, ret. trace_eq.
Qed.

Lemma Push_run cmds s :
  Push E cmds s =
  let '(rw, s1, o1) := Eventstore_writeEvents E cmds s in
  match rw with
  | Panic p => (Panic p, s1, OpSpanStart :: o1 ++ [OpSpanEnd None])
  | Ret (events, err) =>
      if isSetupNotExecutedError E err then
        let '(rf, s2) := pushWithoutFunc E cmds s1 in
        (Ret rf, s2,
         OpSpanStart :: o1 ++ [OpPushWithoutFunc cmds (snd rf); OpSpanEnd (snd rf)])
      else (Ret (events, err), s1, OpSpanStart :: o1 ++ [OpSpanEnd err])
  end.
Proof.
  unfold Push, defer, bind at 1, emit. simpl. unfold bind at 1.
  destruct (Eventstore_writeEvents E cmds s) as [[[[events err]|p] s1] o1];
    simpl; [|done].
  destruct (isSetupNotExecutedError E err); simpl.
  - unfold fallback. destruct (pushWithoutFunc E cmds s1) as [[evs e] s2]; simpl.
    trace_eq.
  - trace_eq.
Qed.

End Paths.

(** ** Following a run *)

(** Case analysis on the next call of a run written out by the path lemmas. *)
Ltac case_path :=
  match goal with
  | |- context [match ?x with _ => _ end] =>
      lazymatch x with
      | context [match _ with _ => _ end] => fail
      | _ => destruct x eqn:?
      end
  end.

Ltac paths :=
  unfold result_of, ops_of, state_of;
  repeat first
    [ rewrite Push_run | rewrite Eventstore_writeEvents_run
    | rewrite checkExecutionPlan_run | rewrite transaction_run
    | rewrite txBody_run
    | rewrite writeEvents_run | rewrite txDeferred_run
    | progress unfold steps_run
    | progress simpl
    | case_path ].

(** Membership in a trace that is written out: one case per call. *)
Ltac in_trace H :=
  repeat first
    [ apply elem_of_app in H as [H|H]
    | apply elem_of_cons in H as [H|H]
    | (apply elem_of_nil in H; destruct H) ].


Lemma scan_op_tx_op o : scan_op o → tx_op o.
Proof. by destruct o. Qed.

Lemma all_before_app P Q (l1 l2 : list Op) :
  Forall (λ o, ¬ Q o) l1 → Forall (λ o, ¬ P o) l2 → all_before P Q (l1 ++ l2).
Proof.
  intros H1 H2 i j a b Hi Hj Pa Qb.
  rewrite Forall_forall in H1. rewrite Forall_forall in H2.
  destruct (decide (i < length l1)) as [Hlt|Hge].
  - destruct (decide (j < length l1)) as [Hj1|Hj1]; [|lia].
    rewrite lookup_app_l in Hj by done.
    destruct (H1 b); [|done]. by eapply list_elem_of_lookup_2.
  - rewrite lookup_app_r in Hi by lia.
    destruct (H2 a); [|done]. by eapply list_elem_of_lookup_2.
Qed.

Lemma all_before_none P Q (l : list Op) :
  Forall (λ o, ¬ P o) l → all_before P Q l.
Proof.
  intros H i j a b Hi Hj Pa Qb. rewrite Forall_forall in H.
  destruct (H a); [|done]. by eapply list_elem_of_lookup_2.
Qed.

Lemma all_before_app_l P Q (l1 l2 : list Op) :
  Forall (λ o, ¬ Q o) l1 → all_before P Q l2 → all_before P Q (l1 ++ l2).
Proof.
  intros H1 H2 i j a b Hi Hj Pa Qb. rewrite Forall_forall in H1.
  destruct (decide (j < length l1)) as [Hj1|Hj1].
  { rewrite lookup_app_l in Hj by done.
    destruct (H1 b); [|done]. by eapply list_elem_of_lookup_2. }
  destruct (decide (i < length l1)) as [Hi1|Hi1]; [lia|].
  rewrite lookup_app_r in Hi by lia. rewrite lookup_app_r in Hj by lia.
  pose proof (H2 _ _ _ _ Hi Hj Pa Qb). lia.
Qed.

Lemma all_before_app_r P Q (l1 l2 : list Op) :
  all_before P Q l1 → Forall (λ o, ¬ P o) l2 → all_before P Q (l1 ++ l2).
Proof.
  intros H1 H2 i j a b Hi Hj Pa Qb. rewrite Forall_forall in H2.
  destruct (decide (i < length l1)) as [Hi1|Hi1].
  - rewrite lookup_app_l in Hi by done.
    destruct (decide (j < length l1)) as [Hj1|Hj1]; [|lia].
    rewrite lookup_app_l in Hj by done. by eapply H1.
  - rewrite lookup_app_r in Hi by lia.
    destruct (H2 a); [|done]. by eapply list_elem_of_lookup_2.
Qed.

Lemma all_before_cons P Q o (l : list Op) :
  ¬ Q o → all_before P Q l → all_before P Q (o :: l).
Proof.
  intros Ho Hl. apply (all_before_app_l P Q [o] l); [|done].
  by repeat constructor.
Qed.

(** A predicate on calls holds of none of the calls of a written-out trace;
    the traces of calls that are not written out are covered by what is
    known of them. *)
Ltac none_of :=
  repeat first
    [ apply Forall_nil_2
    | apply Forall_cons_2; [solve [simpl; tauto]|]
    | apply Forall_app_2
    | solve [ eapply Forall_impl; [eassumption|];
              let o := fresh "o" in intros o; destruct o; simpl; tauto ] ].

(** The order of two kinds of calls in a written-out trace. *)
Ltac order :=
  first
    [ solve [apply all_before_none; none_of]
    | apply all_before_cons; [solve [simpl; tauto]|order]
    | apply all_before_app_l; [solve [none_of]|order] ].

(** The scan-related cases of a membership in a trace. *)
Ltac scan_case Hin :=
  match goal with
  | Hs : scanRows _ _ _ _ = (_, _, ?l) |- _ =>
      match type of Hin with _ ∈ l =>
        let HF := fresh "HF" in
        pose proof (scanRows_ops _ _ _ _ _ _ _ Hs) as HF;
        rewrite Forall_forall in HF; specialize (HF _ Hin)
      end
  end.

(** A call that is none of the scan's is not in the scan's trace. *)
Ltac not_in_trace :=
  let Hc := fresh "Hc" in
  intros Hc; in_trace Hc; try discriminate Hc;
  try (scan_case Hc; by simpl in *).

(** A membership that holds by the position of the call in the trace. *)
Ltac in_here :=
  solve [ eassumption
        | apply elem_of_cons; left; reflexivity
        | apply elem_of_cons; right; in_here
        | apply elem_of_app; left; in_here
        | apply elem_of_app; right; in_here ].

(** ** The transaction *)

Section Transaction.
Context {W : Type} (E : Env W).
Implicit Types (s : state W) (cmds : list Command).

(** A failed step of the scan is the error the loop ends with. *)
Lemma scanRows_step_failed items i events s res s' ops o e :
  scanRows items i events s = (res, s', ops) →
  o ∈ ops → step_failed e o → res = Ret (Some e).
Proof.
  intros H Hin Hf.
  pose proof (scanRows_ops _ _ _ _ _ _ _ H) as HF.
  rewrite Forall_forall in HF. specialize (HF _ Hin).
  destruct o as [| | | | | | | | | |j [e'|]| | | | | | | | |];
    simpl in Hf, HF; try done.
  subst e'. by eapply scanRows_failed.
Qed.

Lemma transaction_ops t cmds s : Forall tx_op (ops_of (transaction E t cmds s)).
Proof.
  paths.
  all: repeat first
    [ apply Forall_nil_2 | apply Forall_cons_2; [done|] | apply Forall_app_2 ].
  all: match goal with
       | Hs : scanRows _ _ _ _ = (_, _, ?l) |- Forall tx_op ?l =>
           eapply Forall_impl; [exact (scanRows_ops _ _ _ _ _ _ _ Hs)|];
           apply scan_op_tx_op
       end.
Qed.

Lemma transaction_step_failed t cmds s o e :
  let r := transaction E t cmds s in
  o ∈ ops_of r → step_failed e o →
  result_of r = Ret ([], Some e) ∧
  (∃ er, OpRollback t er ∈ ops_of r) ∧
  (∀ t' ec, OpCommit t' ec ∉ ops_of r).
Proof.
  intros r. subst r. paths.
  all: intros Hin Hf.
  all: in_trace Hin; subst; simpl in Hf; try done; subst.
  all: try (match goal with
            | Hs : scanRows _ _ _ _ = _ |- _ =>
                pose proof (scanRows_step_failed _ _ _ _ _ _ _ _ _ Hs Hin Hf)
            end; simplify_eq).
  all: split; [done|]; split; [eexists; in_here|]; intros t' ec; not_in_trace.
Qed.

(** The path on which every step went through: what was called, with which
    results, and what the transaction returns. *)
Lemma transaction_steps_ok t cmds s t' cmds' :
  let r := transaction E t cmds s in
  OpFieldCommands t' cmds' None ∈ ops_of r →
  ∃ events payload h1 rows w1 s2 scans ec,
    commandsToEvents E cmds (heap s) = (inr (events, payload), h1) ∧
    tx_QueryContext E t (push2Stmt E) payload (world s) = (inr rows, w1) ∧
    scanRows (rows_items rows) 0 events (mkstate w1 h1) = (Ret None, s2, scans) ∧
    rows_Err rows = None ∧
    heap (state_of r) = heap s2 ∧
    result_of r = Ret (events, ec) ∧
    OpCommandsToEvents cmds (inr (events, payload)) ∈ ops_of r ∧
    OpQuery t (push2Stmt E) payload (inr rows) ∈ ops_of r ∧
    OpUniqueConstraints t cmds None ∈ ops_of r ∧
    OpCommit t ec ∈ ops_of r ∧
    (∀ e, ec = Some e → OpWarn "failed to commit transaction" e ∈ ops_of r) ∧
    (∀ t0 stmt args rq, OpQuery t0 stmt args rq ∈ ops_of r →
       t0 = t ∧ stmt = push2Stmt E ∧ args = payload ∧ rq = inr rows) ∧
    (∀ t0 ec0, OpCommit t0 ec0 ∈ ops_of r → t0 = t ∧ ec0 = ec) ∧
    (∀ t0 er, OpRollback t0 er ∉ ops_of r) ∧
    (∀ e o, o ∈ ops_of r → ¬ step_failed e o).
Proof.
  intros r. subst r. paths.
  all: intros Hin; in_trace Hin; try discriminate Hin; try (scan_case Hin; by simpl in * ).
  all: do 8 eexists.
  all: repeat match goal with |- _ ∧ _ => split end;
    try done; try eassumption; try in_here.
  all: lazymatch goal with
       | |- ∀ _, _ = Some _ → _ => intros ? [=]; subst; in_here
       | |- ∀ _ _, OpRollback _ _ ∉ _ => intros xt xr; not_in_trace
       | |- ∀ _ _ _ _, OpQuery _ _ _ _ ∈ _ → _ =>
           intros xt stmt args rq HQ; in_trace HQ; try discriminate HQ;
           [by simplify_eq | scan_case HQ; by simpl in * ]
       | |- ∀ _ _, OpCommit _ _ ∈ _ → _ =>
           intros xt xc HC; in_trace HC; try discriminate HC;
           [scan_case HC; by simpl in * | by simplify_eq]
       | |- ∀ _ _, _ ∈ _ → ¬ step_failed _ _ =>
           intros xe xo Ho Hf; in_trace Ho; subst; simpl in Hf; try done;
           match goal with
           | Hs : scanRows _ _ _ _ = _ |- _ =>
               by pose proof (scanRows_step_failed _ _ _ _ _ _ _ _ _ Hs Ho Hf)
           end
       end.
Qed.

(** The transaction returns without an error only on that path. *)
Lemma transaction_ok t cmds s events :
  let r := transaction E t cmds s in
  result_of r = Ret (events, None) →
  OpFieldCommands t cmds None ∈ ops_of r.
Proof.
  intros r. subst r. paths.
  all: intros [=]; subst; try in_here.
Qed.

(** The accommodation: called on CockroachDB only, once the unique
    constraints went through, before the field projection and the end of the
    transaction. *)
Lemma transaction_exec t cmds s :
  let ops := ops_of (transaction E t cmds s) in
  (∀ t' q e, OpExec t' q e ∈ ops →
     client_Type E = "cockroach" ∧ t' = t ∧ q = enableMultipleModifications ∧
     OpUniqueConstraints t cmds None ∈ ops) ∧
  (client_Type E = "cockroach" →
   ∀ t' cs, OpUniqueConstraints t' cs None ∈ ops →
     ∃ e, OpExec t' enableMultipleModifications e ∈ ops) ∧
  all_before unique_op exec_op ops ∧
  all_before exec_op field_op ops ∧
  all_before exec_op end_op ops.
Proof.
  intros ops. subst ops. paths.
  all: try match goal with
       | Hs : scanRows _ _ _ _ = _ |- _ =>
           pose proof (scanRows_ops _ _ _ _ _ _ _ Hs)
       end.
  all: repeat match goal with |- _ ∧ _ => split end.
  all: lazymatch goal with
       | |- all_before _ _ _ => rewrite <-?app_assoc; simpl; order
       | |- ∀ _ _ _, OpExec _ _ _ ∈ _ → _ =>
           intros xt xq xe HX; in_trace HX; try discriminate HX;
           first [ scan_case HX; by simpl in *
                 | simplify_eq; repeat split; try done; in_here ]
       | |- _ → ∀ _ _, _ → ∃ _, _ =>
           intros Hty xt xcs HU; try done;
           in_trace HU; try discriminate HU;
           first [ scan_case HU; by simpl in *
                 | simplify_eq; eexists; in_here ]
       end.
Qed.

End Transaction.

(** ** The probe *)

Section Probe.
Context {W : Type} (E : Env W).
Implicit Types (s : state W) (cmds : list Command).

Lemma checkExecutionPlan_ops c s :
  Forall probe_op (ops_of (checkExecutionPlan E c s)).
Proof. paths; by repeat constructor. Qed.

(** The probe returns no error only on a pgx connection, looked up. *)
Lemma checkExecutionPlan_ok c s :
  result_of (checkExecutionPlan E c s) = Ret None →
  ∃ pc, conn_Raw E c (world s) = inr (StdlibConn pc) ∧
        OpRaw c (inr (StdlibConn pc)) ∈ ops_of (checkExecutionPlan E c s).
Proof.
  paths; try done.
  all: intros _; eexists; split; [done|]; apply elem_of_cons; by left.
Qed.

End Probe.


(** ** The claims *)

(** Case analysis on the calls of the method up to the transaction; the
    probe and the transaction are kept as runs, with what is known of their
    traces. *)
Ltac outer :=
  unfold result_of, ops_of, state_of;
  repeat first
    [ rewrite Push_run | rewrite Eventstore_writeEvents_run
    | progress simpl | case_path ];
  repeat match goal with
    | H : checkExecutionPlan ?E ?c ?s = (_, _, ?l) |- _ =>
        lazymatch goal with
        | _ : Forall probe_op l |- _ => fail
        | _ => let HF := fresh "Hprobe" in
               pose proof (checkExecutionPlan_ops E c s) as HF;
               unfold ops_of in HF; rewrite H in HF; simpl in HF
        end
    | H : transaction ?E ?t ?cmds ?s = (_, _, ?l) |- _ =>
        lazymatch goal with
        | _ : Forall tx_op l |- _ => fail
        | _ => let HF := fresh "Htxops" in
               pose proof (transaction_ops E t cmds s) as HF;
               unfold ops_of in HF; rewrite H in HF; simpl in HF
        end
    end.

(** What a lemma on the transaction says of the run [H] of it. *)
Ltac tx_fact lem H :=
  match type of H with
  | transaction ?E ?t ?cmds ?s = _ =>
      let HF := fresh "Htx" in
      pose proof (lem _ E t cmds s) as HF;
      unfold result_of, ops_of, state_of in HF; rewrite H in HF; simpl in HF
  end.

(** The case of a membership in the trace of the probe or of the
    transaction, by what the calls of that trace are. *)
Ltac segment Hin :=
  match type of Hin with
  | ?o ∈ ?l =>
      match goal with
      | HF : Forall ?P l |- _ =>
          let H := fresh "Hseg" in
          pose proof (proj1 (Forall_forall P l) HF o Hin) as H; simpl in H
      end
  end.

(** The order of two kinds of calls in the trace of the method, from their
    order in the trace of the transaction. *)
Ltac order_tx :=
  rewrite <-?app_assoc; simpl;
  repeat first
    [ apply all_before_cons; [solve [simpl; tauto]|]
    | apply all_before_app_l; [solve [none_of]|] ];
  first
    [ solve [apply all_before_none; none_of]
    | apply all_before_app_r; [eassumption|solve [none_of]] ].

Section Primary.
Context {W : Type} (E : Env W).
Implicit Types (s : state W) (cmds : list Command).

(** The calls of the transaction are in the trace of the method only when
    the transaction ran, and then the method returns what the transaction
    returns. *)
Lemma primary_transaction cmds s o :
  o ∈ ops_of (Eventstore_writeEvents E cmds s) → tx_op o →
  ∃ c t s0,
    OpBeginTx c readCommittedRW (inr t) ∈ ops_of (Eventstore_writeEvents E cmds s) ∧
    result_of (Eventstore_writeEvents E cmds s) = result_of (transaction E t cmds s0) ∧
    heap (state_of (Eventstore_writeEvents E cmds s))
    = heap (state_of (transaction E t cmds s0)) ∧
    ∀ o', tx_op o' →
      (o' ∈ ops_of (Eventstore_writeEvents E cmds s)
       ↔ o' ∈ ops_of (transaction E t cmds s0)).
Proof.
  outer.
  all: intros Hin Hop; in_trace Hin; subst; simpl in Hop; try done.
  all: try (segment Hin; by destruct o).
  all: match goal with H : transaction _ ?t _ ?s0 = _ |- _ =>
         exists c, t, s0; rewrite H; simpl end.
  all: split; [in_here|]; split; [done|]; split; [done|].
  all: intros o' Ho'; split; [|intros; in_here].
  all: intros Hin'; in_trace Hin'; subst; simpl in Ho'; try done.
  all: segment Hin'; by destruct o'.
Qed.

(** The method never calls the fallback. *)
Lemma primary_no_fallback cmds s :
  Forall (λ o, ¬ fallback_op o) (ops_of (Eventstore_writeEvents E cmds s)).
Proof. outer; none_of. Qed.

(** The trace of [Push]: its span around the trace of the method, and the
    fallback when it is called. *)
Lemma Push_ops cmds s :
  ∃ tail,
    ops_of (Push E cmds s)
    = OpSpanStart :: ops_of (Eventstore_writeEvents E cmds s) ++ tail ∧
    Forall (λ o, fallback_op o ∨ ∃ err, o = OpSpanEnd err) tail.
Proof.
  unfold ops_of. rewrite Push_run.
  destruct (Eventstore_writeEvents E cmds s) as [[[[events err]|p] s1] o1]; simpl.
  - destruct (isSetupNotExecutedError E err); simpl.
    + destruct (pushWithoutFunc E cmds s1) as [rf s2]; simpl.
      eexists; split; [done|]. repeat constructor; by eauto.
    + eexists; split; [done|]. repeat constructor; by eauto.
  - eexists; split; [done|]. repeat constructor; by eauto.
Qed.

Lemma Push_primary_op cmds s o :
  o ∈ ops_of (Push E cmds s) →
  tx_op o → o ≠ OpSpanStart → (∀ err, o ≠ OpSpanEnd err) →
  o ∈ ops_of (Eventstore_writeEvents E cmds s).
Proof.
  destruct (Push_ops cmds s) as (tail & -> & Htail).
  intros Hin Hop Hs He. in_trace Hin; try done.
  rewrite Forall_forall in Htail.
  destruct (Htail _ Hin) as [Hf|[err ->]]; [by destruct o|by destruct (He err)].
Qed.

Lemma primary_op_Push cmds s o :
  o ∈ ops_of (Eventstore_writeEvents E cmds s) → o ∈ ops_of (Push E cmds s).
Proof. destruct (Push_ops cmds s) as (tail & -> & _). intros. in_here. Qed.

(** Without the fallback, [Push] is the method. *)
Lemma Push_no_fallback cmds s :
  (∀ cs err, OpPushWithoutFunc cs err ∉ ops_of (Push E cmds s)) →
  result_of (Push E cmds s) = result_of (Eventstore_writeEvents E cmds s) ∧
  state_of (Push E cmds s) = state_of (Eventstore_writeEvents E cmds s).
Proof.
  unfold result_of, state_of, ops_of. rewrite Push_run.
  destruct (Eventstore_writeEvents E cmds s) as [[[[events err]|p] s1] o1];
    simpl; [|done].
  destruct (isSetupNotExecutedError E err); simpl; [|done].
  destruct (pushWithoutFunc E cmds s1) as [rf s2]; simpl.
  intros Hnf. destruct (Hnf cmds (snd rf)). in_here.
Qed.

(** The method returns without an error only when every step went through. *)
Lemma primary_ok cmds s events :
  result_of (Eventstore_writeEvents E cmds s) = Ret (events, None) →
  ∃ t, OpFieldCommands t cmds None ∈ ops_of (Eventstore_writeEvents E cmds s).
Proof.
  outer.
  all: intros [=]; subst.
  match goal with H : transaction _ ?t _ _ = _ |- _ =>
    tx_fact (@transaction_ok) H; exists t end.
  specialize (Htx _ eq_refl). in_here.
Qed.

Lemma populated_transfer (ops ops' : list Op) events h :
  (∀ t stmt args rows, OpQuery t stmt args (inr rows) ∈ ops →
                       OpQuery t stmt args (inr rows) ∈ ops') →
  populated ops' events h → populated ops events h.
Proof. intros Hsub Hp t stmt args rows k item Hin. eapply Hp. by apply Hsub. Qed.

Lemma transaction_populated t cmds s t' cmds' events err :
  OpFieldCommands t' cmds' None ∈ ops_of (transaction E t cmds s) →
  result_of (transaction E t cmds s) = Ret (events, err) →
  distinct_events events →
  populated (ops_of (transaction E t cmds s)) events
            (heap (state_of (transaction E t cmds s))).
Proof.
  intros Hf Hres Hd.
  destruct (transaction_steps_ok E t cmds s t' cmds' Hf)
    as (events0 & payload & h1 & rows & w1 & s2 & scans & ec & Htr & Hq & Hscan
        & Herr & Hheap & Hres' & _ & _ & _ & _ & _ & Huniq & _).
  rewrite Hres' in Hres. injection Hres as -> ->.
  intros t0 stmt args rows0 k item Hin Hk.
  destruct (Huniq _ _ _ _ Hin) as (_ & _ & _ & [= ->]).
  destruct (scanRows_done_rows _ _ _ _ _ _ _ _ Hscan Hk) as (r & p & -> & Hev).
  exists r, p. split; [done|]. split; [done|].
  intros ev Hp. rewrite Hheap in Hp.
  rewrite (scanRows_scattered _ _ _ _ _ _ _ _ _ Hd Hscan Hk Hev) in Hp.
  simpl in Hp. destruct (h1 !! p); by simplify_eq/=.
Qed.

(** The commit that fails once every step went through: the method returns
    the events of the translator, scanned, with the error of [Commit]. *)
Lemma primary_commit_failed cmds s t e :
  OpFieldCommands t cmds None ∈ ops_of (Eventstore_writeEvents E cmds s) →
  OpCommit t (Some e) ∈ ops_of (Eventstore_writeEvents E cmds s) →
  ∃ events payload,
    result_of (Eventstore_writeEvents E cmds s) = Ret (events, Some e) ∧
    OpCommandsToEvents cmds (inr (events, payload))
      ∈ ops_of (Eventstore_writeEvents E cmds s) ∧
    OpWarn "failed to commit transaction" e
      ∈ ops_of (Eventstore_writeEvents E cmds s) ∧
    (distinct_events events →
     populated (ops_of (Eventstore_writeEvents E cmds s)) events
               (heap (state_of (Eventstore_writeEvents E cmds s)))) ∧
    (translates E → length events = length cmds) ∧
    (∀ t' er, OpRollback t' er ∉ ops_of (Eventstore_writeEvents E cmds s)) ∧
    (∀ e' o, o ∈ ops_of (Eventstore_writeEvents E cmds s) → ¬ step_failed e' o).
Proof.
  intros Hf Hc.
  destruct (primary_transaction cmds s _ Hf I) as (c & t0 & s0 & Hb & Hr & Hh & Hops).
  apply Hops in Hf; [|done]. apply Hops in Hc; [|done].
  pose proof (transaction_populated t0 cmds s0 t cmds) as Hpop.
  destruct (transaction_steps_ok E t0 cmds s0 t cmds Hf)
    as (events & payload & h1 & rows & w1 & s2 & scans & ec & Htr & Hq & Hscan
        & Herr & Hheap & Hres & Hin1 & Hin2 & Hin3 & Hin4 & Hwarn & Huniq
        & Hcuniq & Hnrb & Hnsf).
  destruct (Hcuniq _ _ Hc) as [_ <-].
  exists events, payload.
  split; [by rewrite Hr|]. split; [by apply Hops|].
  split; [apply Hops; [done|by apply (Hwarn _ eq_refl)]|].
  split; [|split; [|split]].
  - intros Hd. rewrite Hh. eapply populated_transfer; [|by eapply Hpop].
    intros. by apply Hops.
  - intros Htrans. by destruct (Htrans _ _ _ _ _ Htr) as [? _].
  - intros t' er Hin. apply Hops in Hin; [|done]. by apply Hnrb in Hin.
  - intros e' o Hin Hsf.
    assert (tx_op o) as Hop
      by (by destruct o as [| | | | | | | |? []|? ? ? []| | | | | | | | | |]).
    apply Hops in Hin; [|done]. by apply (Hnsf e' o Hin).
Qed.

(** With the translator and the bulk insert keeping their contracts, a scan
    that ran to the end has filled every event of the slice: there is one
    event per command, in order, and the event at an index holds the three
    columns of the row at that index. *)
Lemma scan_fills_events t cmds h events payload h1 w rows w1 s2 scans :
  translates E → inserts E →
  commandsToEvents E cmds h = (inr (events, payload), h1) →
  tx_QueryContext E t (push2Stmt E) payload w = (inr rows, w1) →
  scanRows (rows_items rows) 0 events (mkstate w1 h1) = (Ret None, s2, scans) →
  length events = length cmds ∧
  length (rows_items rows) = length cmds ∧
  ∀ i x, events !! i = Some x →
    ∃ c p ev r,
      cmds !! i = Some c ∧ x = EventPtr (Some p) ∧
      heap s2 !! p = Some ev ∧ ev_command ev = mkcommand c ∧
      rows_items rows !! i = Some (inr r) ∧
      createdAt ev = row_createdAt r ∧ sequence ev = row_sequence r ∧
      position ev = row_position r.
Proof.
  intros Htrans Hins Htr Hq Hscan.
  destruct (Htrans _ _ _ _ _ Htr) as (Hlen & Hplen & Hd & Hslots).
  destruct (Hins _ _ _ _ _ Hq) as (Hrlen & _).
  split; [done|]. split; [lia|].
  intros i x Hx.
  assert (is_Some (cmds !! i)) as [c Hc]
    by (apply lookup_lt_is_Some; apply lookup_lt_Some in Hx; lia).
  destruct (Hslots _ _ Hc) as (p & ev0 & Hev & Hp & Hcmd).
  rewrite Hev in Hx. injection Hx as <-.
  assert (is_Some (rows_items rows !! i)) as [item Hitem]
    by (apply lookup_lt_is_Some; apply lookup_lt_Some in Hc; lia).
  destruct (scanRows_done_rows _ _ _ _ _ _ _ _ Hscan Hitem) as (r & p' & -> & _).
  exists c, p, (scan_into r ev0), r.
  rewrite (scanRows_scattered _ 0 _ _ _ _ i r p Hd Hscan Hitem Hev).
  simpl. by rewrite Hp.
Qed.

(** The commit that fails once every step went through, with the events
    filled: what the method returns then, and what its events hold when the
    translator and the bulk insert keep their contracts. *)
Lemma primary_commit_failed_filled cmds s t e :
  OpFieldCommands t cmds None ∈ ops_of (Eventstore_writeEvents E cmds s) →
  OpCommit t (Some e) ∈ ops_of (Eventstore_writeEvents E cmds s) →
  ∃ events payload,
    result_of (Eventstore_writeEvents E cmds s) = Ret (events, Some e) ∧
    OpCommandsToEvents cmds (inr (events, payload))
      ∈ ops_of (Eventstore_writeEvents E cmds s) ∧
    (distinct_events events →
     populated (ops_of (Eventstore_writeEvents E cmds s)) events
               (heap (state_of (Eventstore_writeEvents E cmds s)))) ∧
    (translates E → length events = length cmds) ∧
    (translates E → inserts E →
     ∃ rows,
       OpQuery t (push2Stmt E) payload (inr rows)
         ∈ ops_of (Eventstore_writeEvents E cmds s) ∧
       length (rows_items rows) = length cmds ∧
       ∀ i x, events !! i = Some x →
         ∃ c p ev r,
           cmds !! i = Some c ∧ x = EventPtr (Some p) ∧
           heap (state_of (Eventstore_writeEvents E cmds s)) !! p = Some ev ∧
           ev_command ev = mkcommand c ∧
           rows_items rows !! i = Some (inr r) ∧
           createdAt ev = row_createdAt r ∧ sequence ev = row_sequence r ∧
           position ev = row_position r) ∧
    (∀ t' er, OpRollback t' er ∉ ops_of (Eventstore_writeEvents E cmds s)).
Proof.
  intros Hf Hc.
  destruct (primary_transaction cmds s _ Hf I) as (c & t0 & s0 & Hb & Hr & Hh & Hops).
  apply Hops in Hf; [|done]. apply Hops in Hc; [|done].
  pose proof (transaction_populated t0 cmds s0 t cmds) as Hpop.
  destruct (transaction_steps_ok E t0 cmds s0 t cmds Hf)
    as (events & payload & h1 & rows & w1 & s2 & scans & ec & Htr & Hq & Hscan
        & Herr & Hheap & Hres & Hin1 & Hin2 & Hin3 & Hin4 & Hwarn & Huniq
        & Hcuniq & Hnrb & Hnsf).
  destruct (Hcuniq _ _ Hc) as [-> <-].
  exists events, payload.
  split; [by rewrite Hr|]. split; [by apply Hops|].
  split; [|split; [|split]].
  - intros Hd. rewrite Hh. eapply populated_transfer; [|by eapply Hpop].
    intros. by apply Hops.
  - intros Htrans. by destruct (Htrans _ _ _ _ _ Htr) as [? _].
  - intros Htrans Hins.
    destruct (scan_fills_events _ _ _ _ _ _ _ _ _ _ _ Htrans Hins Htr Hq Hscan)
      as (Hlen & Hrlen & Hfill).
    exists rows. split; [by apply Hops|]. split; [done|].
    intros i x Hx. rewrite Hh, Hheap. by apply Hfill.
  - intros t' er Hin. apply Hops in Hin; [|done]. by apply Hnrb in Hin.
Qed.

(** A panic of the function [writeEvents] is a panic of its row scan. *)
Lemma writeEvents_panics t cmds s p :
  result_of (writeEvents E t cmds s) = Panic p →
  ∃ events payload h1 rows w1 s2 scans,
    commandsToEvents E cmds (heap s) = (inr (events, payload), h1) ∧
    tx_QueryContext E t (push2Stmt E) payload (world s) = (inr rows, w1) ∧
    scanRows (rows_items rows) 0 events (mkstate w1 h1) = (Panic p, s2, scans) ∧
    OpCommandsToEvents cmds (inr (events, payload)) ∈ ops_of (writeEvents E t cmds s) ∧
    OpQuery t (push2Stmt E) payload (inr rows) ∈ ops_of (writeEvents E t cmds s).
Proof.
  unfold result_of, ops_of. rewrite writeEvents_run.
  destruct (commandsToEvents E cmds (heap s)) as [[e|[events payload]] h1]
    eqn:Htr; simpl; [done|].
  destruct (tx_QueryContext E t (push2Stmt E) payload (world s))
    as [[e|rows] w1] eqn:Hq; simpl; [done|].
  destruct (scanRows (rows_items rows) 0 events _) as [[[[e|]|q] s2] scans] eqn:Hs;
    simpl; [done|by destruct (rows_Err rows)|].
  intros [= ->]. exists events, payload, h1, rows, w1, s2, scans.
  repeat split; try done; in_here.
Qed.

End Primary.

Lemma filter_none {A} (P : A → Prop) `{∀ x, Decision (P x)} (l : list A) :
  Forall (λ x, ¬ P x) l → filter P l = [].
Proof.
  induction 1 as [|x l Hx Hl IH]; [done|].
  by rewrite filter_cons_False.
Qed.

Section Claims.
Context {W : Type} (E : Env W).
Implicit Types (s : state W) (cmds : list Command).

(** C5: when a step of the transaction (batched insert, unique constraints,
    accommodation, field projection) fails with an error, the method
    [writeEvents] rolls the transaction back, never commits, and returns that
    same error with no events, whatever [Rollback] itself answers; [Push]
    hands the error on unchanged unless it is classified as
    setup-not-executed. *)
Theorem C5_step_error_rolls_back cmds s o e :
  o ∈ ops_of (Eventstore_writeEvents E cmds s) → step_failed e o →
  result_of (Eventstore_writeEvents E cmds s) = Ret ([], Some e) ∧
  (∃ c t er,
     OpBeginTx c readCommittedRW (inr t) ∈ ops_of (Eventstore_writeEvents E cmds s) ∧
     OpRollback t er ∈ ops_of (Eventstore_writeEvents E cmds s)) ∧
  (∀ t ec, OpCommit t ec ∉ ops_of (Eventstore_writeEvents E cmds s)) ∧
  (isSetupNotExecutedError E (Some e) = false →
   result_of (Push E cmds s) = Ret ([], Some e)).
Proof.
  intros Hin Hf.
  assert (tx_op o) as Hop by (by destruct o as [| | | | | | | |? []|? ? ? []| | | | | | | | | |]).
  destruct (primary_transaction E cmds s o Hin Hop) as (c & t & s0 & Hb & Hr & _ & Hops).
  apply Hops in Hin; [|done].
  destruct (transaction_step_failed E t cmds s0 o e Hin Hf) as (Hres & [er Hrb] & Hnc).
  rewrite Hres in Hr.
  split; [done|]. split; [|split].
  - exists c, t, er. split; [done|]. by apply Hops.
  - intros t' ec Hc. apply Hops in Hc; [|done]. by apply Hnc in Hc.
  - intros Hns. revert Hr. unfold result_of. rewrite Push_run.
    destruct (Eventstore_writeEvents E cmds s) as [[rw s1] o1]; simpl.
    intros ->. by rewrite Hns.
Qed.

(** C8: the transaction is begun read committed and read-write, every call
    of the transaction comes after such a [BeginTx] that succeeded, and when
    [BeginTx] fails the method returns its error having called none of the
    steps (nor [Commit] or [Rollback]). *)
Theorem C8_begin_read_committed cmds s :
  (∀ c opts rb, OpBeginTx c opts rb ∈ ops_of (Eventstore_writeEvents E cmds s) →
     Isolation opts = LevelReadCommitted ∧ ReadOnly opts = false) ∧
  (∀ o, o ∈ ops_of (Eventstore_writeEvents E cmds s) → tx_op o →
     ∃ c t, OpBeginTx c readCommittedRW (inr t)
            ∈ ops_of (Eventstore_writeEvents E cmds s)) ∧
  (∀ c opts e, OpBeginTx c opts (inl e) ∈ ops_of (Eventstore_writeEvents E cmds s) →
     result_of (Eventstore_writeEvents E cmds s) = Ret ([], Some e) ∧
     Forall (λ o, ¬ tx_op o) (ops_of (Eventstore_writeEvents E cmds s)) ∧
     (isSetupNotExecutedError E (Some e) = false →
      result_of (Push E cmds s) = Ret ([], Some e))).
Proof.
  split; [|split].
  - outer.
    all: intros xc opts rb Hin; in_trace Hin; try discriminate Hin.
    all: try (segment Hin; by simpl in * ).
    all: by simplify_eq.
  - intros o Hin Hop.
    destruct (primary_transaction E cmds s o Hin Hop) as (c & t & _ & Hb & _).
    by exists c, t.
  - outer.
    all: intros xc opts xe Hin; in_trace Hin; try discriminate Hin.
    all: try (segment Hin; by simpl in * ).
    all: simplify_eq.
    all: repeat match goal with |- _ ∧ _ => split end; try done.
    all: try none_of.
    all: intros Hns; congruence.
Qed.

(** C3: [Push] calls the fallback at most once, and exactly when the method
    [writeEvents] returned with an error classified as setup-not-executed;
    for any other result of the method, [Push] returns that result as it is
    and the fallback is not called. *)
Theorem C3_fallback_at_most_once cmds s :
  length (filter fallback_op (ops_of (Push E cmds s))) ≤ 1 ∧
  ((∃ o, o ∈ ops_of (Push E cmds s) ∧ fallback_op o) ↔
   ∃ events err,
     result_of (Eventstore_writeEvents E cmds s) = Ret (events, err) ∧
     isSetupNotExecutedError E err = true) ∧
  (∀ events err,
     result_of (Eventstore_writeEvents E cmds s) = Ret (events, err) →
     isSetupNotExecutedError E err = false →
     result_of (Push E cmds s) = Ret (events, err) ∧
     state_of (Push E cmds s) = state_of (Eventstore_writeEvents E cmds s) ∧
     Forall (λ o, ¬ fallback_op o) (ops_of (Push E cmds s))).
Proof.
  pose proof (primary_no_fallback E cmds s) as Hnf.
  revert Hnf. unfold result_of, state_of, ops_of. rewrite Push_run.
  destruct (Eventstore_writeEvents E cmds s) as [[[[events err]|p] s1] o1];
    simpl; intros Hnf.
  - destruct (isSetupNotExecutedError E err) eqn:Hc; simpl.
    + destruct (pushWithoutFunc E cmds s1) as [rf s2]; simpl.
      split; [|split].
      * rewrite filter_cons_False by (simpl; tauto).
        rewrite filter_app, (filter_none _ _ Hnf).
        rewrite filter_cons_True by done.
        rewrite filter_cons_False by (simpl; tauto). simpl. lia.
      * split; [by eauto|]. intros _.
        exists (OpPushWithoutFunc cmds (snd rf)). split; [in_here|done].
      * intros ?? [=]; subst. congruence.
    + split; [|split].
      * rewrite filter_cons_False by (simpl; tauto).
        rewrite filter_app, (filter_none _ _ Hnf).
        rewrite filter_cons_False by (simpl; tauto). simpl. lia.
      * split.
        -- intros (o & Hin & Ho). in_trace Hin; subst; simpl in Ho; try done.
           rewrite Forall_forall in Hnf. by destruct (Hnf _ Hin).
        -- intros (? & ? & [=] & ?); subst. congruence.
      * intros ?? [=] _; subst. split; [done|]. split; [done|]. none_of.
  - split; [|split].
    + rewrite filter_cons_False by (simpl; tauto).
      rewrite filter_app, (filter_none _ _ Hnf).
      rewrite filter_cons_False by (simpl; tauto). simpl. lia.
    + split.
      * intros (o & Hin & Ho). in_trace Hin; subst; simpl in Ho; try done.
        rewrite Forall_forall in Hnf. by destruct (Hnf _ Hin).
      * by intros (? & ? & [=] & ?).
    + by intros ?? [=].
Qed.

(** C7: the statement [SET enable_multiple_modifications_of_table = on] is
    executed on CockroachDB and on no other backend, and no other statement
    is executed with [Exec]; it is executed in the transaction that was
    begun, when the unique constraints went through: after that step, before
    the field projection and before the transaction ends. *)
Theorem C7_accommodation_on_cockroach cmds s :
  (∀ t q e, OpExec t q e ∈ ops_of (Eventstore_writeEvents E cmds s) →
     client_Type E = "cockroach" ∧
     q = "SET enable_multiple_modifications_of_table = on" ∧
     (∃ c, OpBeginTx c readCommittedRW (inr t)
           ∈ ops_of (Eventstore_writeEvents E cmds s)) ∧
     OpUniqueConstraints t cmds None ∈ ops_of (Eventstore_writeEvents E cmds s)) ∧
  (client_Type E = "cockroach" →
   ∀ t cs, OpUniqueConstraints t cs None ∈ ops_of (Eventstore_writeEvents E cmds s) →
     ∃ e, OpExec t "SET enable_multiple_modifications_of_table = on" e
          ∈ ops_of (Eventstore_writeEvents E cmds s)) ∧
  (client_Type E ≠ "cockroach" →
   Forall (λ o, ¬ exec_op o) (ops_of (Eventstore_writeEvents E cmds s))) ∧
  all_before begin_op exec_op (ops_of (Eventstore_writeEvents E cmds s)) ∧
  all_before unique_op exec_op (ops_of (Eventstore_writeEvents E cmds s)) ∧
  all_before exec_op field_op (ops_of (Eventstore_writeEvents E cmds s)) ∧
  all_before exec_op end_op (ops_of (Eventstore_writeEvents E cmds s)).
Proof.
  assert (∀ t q e, OpExec t q e ∈ ops_of (Eventstore_writeEvents E cmds s) →
     client_Type E = "cockroach" ∧
     q = "SET enable_multiple_modifications_of_table = on" ∧
     (∃ c, OpBeginTx c readCommittedRW (inr t)
           ∈ ops_of (Eventstore_writeEvents E cmds s)) ∧
     OpUniqueConstraints t cmds None ∈ ops_of (Eventstore_writeEvents E cmds s))
    as Hexec.
  { intros t q e Hin.
    destruct (primary_transaction E cmds s _ Hin I) as (c & t0 & s0 & Hb & _ & _ & Hops).
    apply Hops in Hin; [|done].
    destruct (transaction_exec E t0 cmds s0) as (Hx & _).
    destruct (Hx _ _ _ Hin) as (? & -> & ? & HU).
    repeat split; [done|done| |].
    - by exists c.
    - by apply Hops. }
  split; [done|]. split; [|split].
  - intros Hty t cs Hin.
    destruct (primary_transaction E cmds s _ Hin I) as (c & t0 & s0 & Hb & _ & _ & Hops).
    apply Hops in Hin; [|done].
    destruct (transaction_exec E t0 cmds s0) as (_ & Hx & _).
    destruct (Hx Hty _ _ Hin) as [e He]. exists e. by apply Hops.
  - intros Hty. apply Forall_forall. intros o Hin Ho.
    destruct o; simpl in Ho; try done.
    by destruct (Hexec _ _ _ Hin) as [? _].
  - outer.
    all: try match goal with H : transaction _ _ _ _ = _ |- _ =>
           tx_fact (@transaction_exec) H;
           destruct Htx as (_ & _ & Hue & Hef & Hee) end.
    all: repeat match goal with |- _ ∧ _ => split end.
    all: order_tx.
Qed.

(** C6: the probe comes before [BeginTx], which is called only after a
    probe of that connection; it registers the types only when
    the type map of the connection lacks the composite type; on a connection
    that has it the probe makes no call but the lookup, changes nothing and
    returns no error; a probe that returned no error leaves the type present
    (given that a registration that succeeds registers), and a [Push] on a
    connection that has the type registers nothing. *)
Theorem C6_probe_registers_once cmds c s :
  all_before probe_op begin_op (ops_of (Eventstore_writeEvents E cmds s)) ∧
  (∀ c' opts rb,
     OpBeginTx c' opts rb ∈ ops_of (Eventstore_writeEvents E cmds s) →
     ∃ pc, OpRaw c' (inr (StdlibConn pc))
           ∈ ops_of (Eventstore_writeEvents E cmds s)) ∧
  (∀ pc er, OpRegisterTypes pc er ∈ ops_of (checkExecutionPlan E c s) →
     conn_Raw E c (world s) = inr (StdlibConn pc) ∧
     typeMap_TypeForValue E pc (world s) = false) ∧
  (∀ pc, conn_Raw E c (world s) = inr (StdlibConn pc) →
     typeMap_TypeForValue E pc (world s) = true →
     checkExecutionPlan E c s
     = (Ret None, s, [OpRaw c (inr (StdlibConn pc)); OpTypeForValue pc true])) ∧
  (registers E →
   ∀ pc, conn_Raw E c (world s) = inr (StdlibConn pc) →
     result_of (checkExecutionPlan E c s) = Ret None →
     typeMap_TypeForValue E pc (world (state_of (checkExecutionPlan E c s))) = true) ∧
  (∀ c' w1 pc,
     client_Conn E (world s) = (inr c', w1) →
     conn_Raw E c' w1 = inr (StdlibConn pc) →
     typeMap_TypeForValue E pc w1 = true →
     ∀ pc' er, OpRegisterTypes pc' er ∉ ops_of (Push E cmds s)).
Proof.
  split; [|split; [|split; [|split; [|split]]]].
  - outer; order_tx.
  - outer.
    all: intros xc opts rb Hin; in_trace Hin; try discriminate Hin.
    all: try (segment Hin; by simpl in * ).
    all: simplify_eq.
    all: match goal with H : checkExecutionPlan ?E ?c ?s0 = _ |- _ =>
           destruct (checkExecutionPlan_ok E c s0) as (pc & _ & Hraw);
           [unfold result_of; by rewrite H|];
           unfold ops_of in Hraw; rewrite H in Hraw; simpl in Hraw
         end.
    all: exists pc; in_here.
  - paths.
    all: intros xpc xer Hin; in_trace Hin; try discriminate Hin.
    by simplify_eq.
  - intros pc Hraw Hty. rewrite checkExecutionPlan_run, Hraw, Hty. done.
  - intros Hreg pc Hraw. paths; try done.
    all: intros [=]; simplify_eq; try done.
    by eapply Hreg.
  - intros c' w1 pc Hconn Hraw Hty pc' er.
    unfold ops_of. rewrite Push_run, Eventstore_writeEvents_run, Hconn.
    rewrite checkExecutionPlan_run. simpl. rewrite Hraw, Hty. simpl.
    repeat case_path; simpl.
    all: match goal with H : transaction ?E ?t ?cmds ?s = (_, _, ?l) |- _ =>
           let HF := fresh "Htxops" in
           pose proof (transaction_ops E t cmds s) as HF;
           unfold ops_of in HF; rewrite H in HF; simpl in HF
         | _ => idtac end.
    all: intros Hc; in_trace Hc; try discriminate Hc.
    all: segment Hc; by simpl in *.
Qed.

(** C9: the row scan indexes the slice with the row counter and asserts
    the type of the element, neither with a check: a row past the end of the
    slice is an index panic, a slot that holds no [*event] an assertion
    panic, and these panics arise in no other way.  When the translator
    yields as many elements as there are commands, all of them [*event]
    values, and the backend answers at most as many rows as there are
    commands, the function [writeEvents] has neither panic. *)
Theorem C9_scan_panic_freedom cmds t s :
  ((∀ events payload h1 rows w1,
      commandsToEvents E cmds (heap s) = (inr (events, payload), h1) →
      tx_QueryContext E t (push2Stmt E) payload (world s) = (inr rows, w1) →
      length events = length cmds ∧
      (∀ ev, ev ∈ events → ∃ p, ev = EventPtr p) ∧
      length (rows_items rows) ≤ length cmds) →
   (∀ a n, result_of (writeEvents E t cmds s) ≠ Panic (PanicIndexOutOfRange a n)) ∧
   result_of (writeEvents E t cmds s) ≠ Panic PanicTypeAssertion) ∧
  (∀ item rest i events (s0 : state W),
     events !! i = None →
     scanRows (item :: rest) i events s0
     = (Panic (PanicIndexOutOfRange i (length events)), s0, [])) ∧
  (∀ item rest i events (s0 : state W) ev,
     events !! i = Some ev → (∀ p, ev ≠ EventPtr p) →
     scanRows (item :: rest) i events s0 = (Panic PanicTypeAssertion, s0, [])) ∧
  (∀ a n,
     result_of (writeEvents E t cmds s) = Panic (PanicIndexOutOfRange a n) →
     ∃ events payload rows,
       OpCommandsToEvents cmds (inr (events, payload))
         ∈ ops_of (writeEvents E t cmds s) ∧
       OpQuery t (push2Stmt E) payload (inr rows) ∈ ops_of (writeEvents E t cmds s) ∧
       n = length events ∧ length events ≤ a < length (rows_items rows)) ∧
  (result_of (writeEvents E t cmds s) = Panic PanicTypeAssertion →
   ∃ events payload rows a ev,
     OpCommandsToEvents cmds (inr (events, payload))
       ∈ ops_of (writeEvents E t cmds s) ∧
     OpQuery t (push2Stmt E) payload (inr rows) ∈ ops_of (writeEvents E t cmds s) ∧
     a < length (rows_items rows) ∧ events !! a = Some ev ∧ ∀ p, ev ≠ EventPtr p).
Proof.
  split; [|split; [|split; [|split]]].
  - intros Hpre. split.
    + intros a n Hp.
      destruct (writeEvents_panics E t cmds s _ Hp)
        as (events & payload & h1 & rows & w1 & s2 & scans & Htr & Hq & Hs & _).
      destruct (Hpre _ _ _ _ _ Htr Hq) as (Hlen & _ & Hrows).
      apply scanRows_index_panic in Hs as (Ha & Hnone & _).
      apply lookup_ge_None in Hnone. lia.
    + intros Hp.
      destruct (writeEvents_panics E t cmds s _ Hp)
        as (events & payload & h1 & rows & w1 & s2 & scans & Htr & Hq & Hs & _).
      destruct (Hpre _ _ _ _ _ Htr Hq) as (_ & Hall & _).
      apply scanRows_assertion_panic in Hs as (a & ev & _ & Hev & Hne).
      destruct (Hall ev) as [p ->]; [by eapply list_elem_of_lookup_2|].
      by destruct (Hne p).
  - intros. by apply scanRows_out_of_range.
  - intros. by eapply scanRows_not_event.
  - intros a n Hp.
    destruct (writeEvents_panics E t cmds s _ Hp)
      as (events & payload & h1 & rows & w1 & s2 & scans & _ & _ & Hs & Hc & Hq).
    apply scanRows_index_panic in Hs as (Ha & Hnone & ->).
    apply lookup_ge_None in Hnone.
    exists events, payload, rows. repeat split; try done; lia.
  - intros Hp.
    destruct (writeEvents_panics E t cmds s _ Hp)
      as (events & payload & h1 & rows & w1 & s2 & scans & _ & _ & Hs & Hc & Hq).
    apply scanRows_assertion_panic in Hs as (a & ev & Ha & Hev & Hne).
    exists events, payload, rows, a, ev. repeat split; try done; lia.
Qed.

(** C10: when every step went through and the deferred [Commit] fails, the
    method [writeEvents] returns the events of the translator, every row
    scanned into the event at its index, together with the error of
    [Commit]; no rollback is called; the slice is not empty for a batch that
    is not; and [Push] returns both to its caller, on the state the method
    left, unless the error is classified as setup-not-executed.  The slice
    is fully populated: with the translator and the bulk insert keeping
    their contracts, it has one event per command, in order, and every
    event returned holds the creation date, sequence and position of the
    row at its index. *)
Theorem C10_events_with_commit_error cmds s t e :
  OpFieldCommands t cmds None ∈ ops_of (Eventstore_writeEvents E cmds s) →
  OpCommit t (Some e) ∈ ops_of (Eventstore_writeEvents E cmds s) →
  ∃ events payload,
    result_of (Eventstore_writeEvents E cmds s) = Ret (events, Some e) ∧
    OpCommandsToEvents cmds (inr (events, payload))
      ∈ ops_of (Eventstore_writeEvents E cmds s) ∧
    (distinct_events events →
     populated (ops_of (Eventstore_writeEvents E cmds s)) events
               (heap (state_of (Eventstore_writeEvents E cmds s)))) ∧
    (translates E → cmds ≠ [] → events ≠ []) ∧
    (translates E → inserts E →
     length events = length cmds ∧
     ∃ rows,
       OpQuery t (push2Stmt E) payload (inr rows)
         ∈ ops_of (Eventstore_writeEvents E cmds s) ∧
       length (rows_items rows) = length cmds ∧
       ∀ i x, events !! i = Some x →
         ∃ c p ev r,
           cmds !! i = Some c ∧ x = EventPtr (Some p) ∧
           heap (state_of (Eventstore_writeEvents E cmds s)) !! p = Some ev ∧
           ev_command ev = mkcommand c ∧
           rows_items rows !! i = Some (inr r) ∧
           createdAt ev = row_createdAt r ∧ sequence ev = row_sequence r ∧
           position ev = row_position r) ∧
    (∀ t' er, OpRollback t' er ∉ ops_of (Eventstore_writeEvents E cmds s)) ∧
    (isSetupNotExecutedError E (Some e) = false →
     result_of (Push E cmds s) = Ret (events, Some e) ∧
     state_of (Push E cmds s) = state_of (Eventstore_writeEvents E cmds s)).
Proof.
  intros Hf Hc.
  destruct (primary_commit_failed_filled E cmds s t e Hf Hc)
    as (events & payload & Hres & Htr & Hpop & Hlen & Hfill & Hnrb).
  exists events, payload.
  split; [done|]. split; [done|]. split; [done|].
  split; [|split; [|split; [done|]]].
  - intros Htrans Hne ->. apply Hlen in Htrans. by destruct cmds.
  - intros Htrans Hins. split; [by apply Hlen|]. by apply Hfill.
  - intros Hns. revert Hres. unfold result_of, state_of. rewrite Push_run.
    destruct (Eventstore_writeEvents E cmds s) as [[rw s1] o1]; simpl.
    intros ->. by rewrite Hns.
Qed.

(** C1, as the code has it: when every step went through and [Commit]
    fails, the error is logged as a warning and it is returned: the method
    returns it, and [Push] returns it to its caller, or, when the error is
    classified as setup-not-executed, calls the fallback and returns what
    the fallback returns. *)
Theorem C1_commit_error_returned cmds s t e :
  OpFieldCommands t cmds None ∈ ops_of (Push E cmds s) →
  OpCommit t (Some e) ∈ ops_of (Push E cmds s) →
  OpWarn "failed to commit transaction" e ∈ ops_of (Push E cmds s) ∧
  (∀ e' o, o ∈ ops_of (Push E cmds s) → ¬ step_failed e' o) ∧
  ∃ events,
    result_of (Eventstore_writeEvents E cmds s) = Ret (events, Some e) ∧
    (isSetupNotExecutedError E (Some e) = false →
     result_of (Push E cmds s) = Ret (events, Some e)) ∧
    (isSetupNotExecutedError E (Some e) = true →
     ∃ rf, OpPushWithoutFunc cmds (snd rf) ∈ ops_of (Push E cmds s) ∧
           result_of (Push E cmds s) = Ret rf).
Proof.
  intros Hf Hc.
  apply Push_primary_op in Hf; [|done..].
  apply Push_primary_op in Hc; [|done..].
  destruct (primary_commit_failed E cmds s t e Hf Hc)
    as (events & payload & Hres & _ & Hwarn & _ & _ & _ & Hnsf).
  split; [by apply primary_op_Push|]. split.
  - intros e' o Hin Hsf.
    assert (tx_op o ∧ o ≠ OpSpanStart ∧ ∀ err, o ≠ OpSpanEnd err) as (? & ? & ?)
      by (by destruct o as [| | | | | | | |? []|? ? ? []| | | | | | | | | |]).
    apply Push_primary_op in Hin; [|done..]. by apply (Hnsf e' o Hin).
  - exists events. split; [done|].
    revert Hres. unfold result_of, ops_of. rewrite Push_run.
    destruct (Eventstore_writeEvents E cmds s) as [[rw s1] o1]; simpl.
    intros ->. split; intros Hcl; rewrite Hcl; [done|].
    destruct (pushWithoutFunc E cmds s1) as [rf s2]; simpl.
    exists rf. split; [in_here|done].
Qed.

(** What [Push] returns without an error and without the fallback: the
    transaction ran on the path on which every step went through. *)
Lemma Push_ok_steps cmds s events :
  result_of (Push E cmds s) = Ret (events, None) →
  (∀ cs err, OpPushWithoutFunc cs err ∉ ops_of (Push E cmds s)) →
  ∃ c t s0 payload h1 rows w1 s2 scans,
    OpBeginTx c readCommittedRW (inr t) ∈ ops_of (Push E cmds s) ∧
    OpCommandsToEvents cmds (inr (events, payload)) ∈ ops_of (Push E cmds s) ∧
    OpQuery t (push2Stmt E) payload (inr rows) ∈ ops_of (Push E cmds s) ∧
    OpCommit t None ∈ ops_of (Push E cmds s) ∧
    commandsToEvents E cmds (heap s0) = (inr (events, payload), h1) ∧
    tx_QueryContext E t (push2Stmt E) payload (world s0) = (inr rows, w1) ∧
    scanRows (rows_items rows) 0 events (mkstate w1 h1) = (Ret None, s2, scans) ∧
    heap (state_of (Push E cmds s)) = heap s2.
Proof.
  intros Hres Hnf.
  destruct (Push_no_fallback E cmds s Hnf) as [Hr Hs].
  rewrite Hr in Hres. rewrite Hs.
  destruct (primary_ok E cmds s events Hres) as [t Hf].
  destruct (primary_transaction E cmds s _ Hf I) as (c & t0 & s0 & Hb & Hr0 & Hh & Hops).
  apply Hops in Hf; [|done].
  destruct (transaction_steps_ok E t0 cmds s0 t cmds Hf)
    as (events0 & payload & h1 & rows & w1 & s2 & scans & ec & Htr & Hq & Hscan
        & _ & Hheap & Hres0 & Hin1 & Hin2 & _ & Hin4 & _).
  rewrite Hr0, Hres0 in Hres. injection Hres as -> ->.
  exists c, t0, s0, payload, h1, rows, w1, s2, scans.
  repeat split; try done.
  1-4: apply primary_op_Push; try done; by apply Hops.
  by rewrite Hh.
Qed.

(** C2, as the code has it: the empty batch takes the path of any batch.
    When [Push] returns without an error (and without the fallback), a
    transaction was begun and committed and the bulk-insert statement was
    executed in it, on the payload of the translator; what is returned is
    the event sequence of the translator, which is empty when the translator
    keeps the length, the backend having answered no row. *)
Theorem C2_empty_batch_runs_the_insert s events :
  result_of (Push E [] s) = Ret (events, None) →
  (∀ cs err, OpPushWithoutFunc cs err ∉ ops_of (Push E [] s)) →
  ∃ c t payload rows,
    OpBeginTx c readCommittedRW (inr t) ∈ ops_of (Push E [] s) ∧
    OpCommandsToEvents [] (inr (events, payload)) ∈ ops_of (Push E [] s) ∧
    OpQuery t (push2Stmt E) payload (inr rows) ∈ ops_of (Push E [] s) ∧
    OpCommit t None ∈ ops_of (Push E [] s) ∧
    (translates E → events = [] ∧ rows_items rows = []).
Proof.
  intros Hres Hnf.
  destruct (Push_ok_steps [] s events Hres Hnf)
    as (c & t & s0 & payload & h1 & rows & w1 & s2 & scans & Hb & Hc & Hq & Hcm
        & Htr & _ & Hscan & _).
  exists c, t, payload, rows.
  split; [done|]. split; [done|]. split; [done|]. split; [done|].
  intros Htrans. apply Htrans in Htr as [Hlen _]. split.
  - by destruct events.
  -
    destruct (rows_items rows) as [|item rest] eqn:Hitems; [done|].
    destruct (scanRows_done_rows _ 0 _ _ _ _ 0 item Hscan) as (r & p & _ & Hev);
      [done|].
    apply lookup_lt_Some in Hev. simpl in Hlen. lia.
Qed.

(** C4: on a [Push] of N commands that returns without an error on the
    primary path, with the translator and the bulk insert keeping their
    contracts, the N events returned are the placeholders of the commands,
    in their order; the event at index i holds the creation date, sequence
    and position of the i-th row the bulk insert answered; and the position
    is strictly increasing along the returned sequence. *)
Theorem C4_push_scatters_rows cmds s events :
  translates E → inserts E →
  result_of (Push E cmds s) = Ret (events, None) →
  (∀ cs err, OpPushWithoutFunc cs err ∉ ops_of (Push E cmds s)) →
  length events = length cmds ∧
  (∃ t payload rows,
     OpQuery t (push2Stmt E) payload (inr rows) ∈ ops_of (Push E cmds s) ∧
     length (rows_items rows) = length cmds ∧
     ∀ i c, cmds !! i = Some c →
       ∃ p ev r,
         events !! i = Some (EventPtr (Some p)) ∧
         heap (state_of (Push E cmds s)) !! p = Some ev ∧
         ev_command ev = mkcommand c ∧
         rows_items rows !! i = Some (inr r) ∧
         createdAt ev = row_createdAt r ∧ sequence ev = row_sequence r ∧
         position ev = row_position r) ∧
  (∀ i j pi pj ei ej, i < j →
     events !! i = Some (EventPtr (Some pi)) →
     events !! j = Some (EventPtr (Some pj)) →
     heap (state_of (Push E cmds s)) !! pi = Some ei →
     heap (state_of (Push E cmds s)) !! pj = Some ej →
     (position ei < position ej)%Z).
Proof.
  intros Htrans Hins Hres Hnf.
  destruct (Push_ok_steps cmds s events Hres Hnf)
    as (c & t & s0 & payload & h1 & rows & w1 & s2 & scans & Hb & Hc & Hq & Hcm
        & Htr & Hqe & Hscan & Hheap).
  destruct (Htrans _ _ _ _ _ Htr) as (Hlen & Hplen & Hd & Hslots).
  destruct (Hins _ _ _ _ _ Hqe) as (Hrlen & Hinc).
  assert (∀ i c, cmds !! i = Some c →
       ∃ p ev r,
         events !! i = Some (EventPtr (Some p)) ∧
         heap (state_of (Push E cmds s)) !! p = Some ev ∧
         ev_command ev = mkcommand c ∧
         rows_items rows !! i = Some (inr r) ∧
         createdAt ev = row_createdAt r ∧ sequence ev = row_sequence r ∧
         position ev = row_position r) as Hrow.
  { intros i cm Hi.
    destruct (Hslots _ _ Hi) as (p & ev0 & Hev & Hp & Hcmd).
    assert (i < length (rows_items rows)) as Hlt
      by (apply lookup_lt_Some in Hi; lia).
    apply lookup_lt_is_Some in Hlt as [item Hitem].
    destruct (scanRows_done_rows _ _ _ _ _ _ _ _ Hscan Hitem) as (r & p' & -> & Hev').
    simpl in Hev'. rewrite Hev in Hev'. injection Hev' as <-.
    exists p, (scan_into r ev0), r.
    rewrite Hheap, (scanRows_scattered _ 0 _ _ _ _ i r p Hd Hscan Hitem Hev).
    simpl. by rewrite Hp. }
  split; [done|]. split.
  - exists t, payload, rows. split; [done|]. split; [lia|done].
  - intros i j pi pj ei ej Hij Hi Hj Hpi Hpj.
    assert (is_Some (cmds !! i)) as [ci Hci]
      by (apply lookup_lt_is_Some; apply lookup_lt_Some in Hi; lia).
    assert (is_Some (cmds !! j)) as [cj Hcj]
      by (apply lookup_lt_is_Some; apply lookup_lt_Some in Hj; lia).
    destruct (Hrow _ _ Hci) as (p1 & e1 & r1 & Hi' & Hp1 & _ & Hr1 & _ & _ & Hpos1).
    destruct (Hrow _ _ Hcj) as (p2 & e2 & r2 & Hj' & Hp2 & _ & Hr2 & _ & _ & Hpos2).
    simplify_eq. rewrite Hpos1, Hpos2. by eapply Hinc.
Qed.

End Claims.

(** ** The simulated backend keeps the contracts *)

Lemma Sim_placeholders cmds : ∀ h evs payload h',
  Sim.placeholders cmds h = (evs, payload, h') →
  length evs = length cmds ∧ length payload = length cmds ∧
  (∀ q, q ∈ dom h → h' !! q = h !! q) ∧
  (∀ i ev, evs !! i = Some ev → ∃ p, ev = EventPtr (Some p) ∧ p ∉ dom h) ∧
  (∀ i c, cmds !! i = Some c →
     ∃ p ev, evs !! i = Some (EventPtr (Some p)) ∧ h' !! p = Some ev ∧
             ev_command ev = mkcommand c) ∧
  distinct_events evs.
Proof.
  induction cmds as [|c rest IH]; intros h evs payload h' H; simpl in H.
  { simplify_eq. by repeat split. }
  set (p := fresh (dom h)) in *.
  set (e := {| ev_command := mkcommand c; createdAt := 0; sequence := 0;
               position := 0 |}) in *.
  assert (p ∉ dom h) as Hp by apply is_fresh.
  destruct (Sim.placeholders rest (<[p:=e]> h)) as [[evs' payload'] h1] eqn:Hrest.
  simplify_eq.
  destruct (IH _ _ _ _ Hrest) as (Hl1 & Hl2 & Hframe & Hfresh & Hslots & Hd).
  assert (h' !! p = Some e) as Hpe.
  { rewrite Hframe; [by rewrite lookup_insert_eq|].
    rewrite dom_insert_L. by apply elem_of_union_l, elem_of_singleton. }
  repeat split.
  - simpl. by rewrite Hl1.
  - simpl. by rewrite Hl2.
  - intros q Hq. rewrite Hframe; [|rewrite dom_insert_L; by apply elem_of_union_r].
    rewrite lookup_insert_ne; [done|]. by intros ->.
  - intros [|i] ev Hi; simpl in Hi.
    + simplify_eq. by exists p.
    + destruct (Hfresh _ _ Hi) as (q & -> & Hq). exists q. split; [done|].
      rewrite dom_insert_L in Hq. intros Hin. apply Hq.
      by apply elem_of_union_r.
  - intros [|i] c' Hi; simpl in Hi.
    + simplify_eq. by exists p, e.
    + by apply Hslots.
  - intros [|i] [|j] q Hi Hj; simpl in Hi, Hj; simplify_eq; try done.
    + destruct (Hfresh _ _ Hj) as (q & [= <-] & Hq).
      rewrite dom_insert_L in Hq. destruct Hq.
      by apply elem_of_union_l, elem_of_singleton.
    + destruct (Hfresh _ _ Hi) as (q' & [= <-] & Hq).
      rewrite dom_insert_L in Hq. destruct Hq.
      by apply elem_of_union_l, elem_of_singleton.
    + f_equal. by eapply Hd.
Qed.

Lemma Sim_translates f : translates (Sim.env f).
Proof.
  intros cmds h events payload h' H. simpl in H.
  destruct (Sim.f_translate f); [done|].
  destruct (Sim.placeholders cmds h) as [[evs pl] h1] eqn:Hp. simplify_eq.
  destruct (Sim_placeholders _ _ _ _ _ Hp) as (? & ? & _ & _ & ? & ?).
  done.
Qed.

Lemma Sim_insert_rows args : ∀ now,
  length (Sim.insert_rows args now) = length args ∧
  ∀ i r, Sim.insert_rows args now !! i = Some r →
         row_position r = (now + 1 + Z.of_nat i)%Z.
Proof.
  induction args as [|a rest IH]; intros now; simpl; [done|].
  destruct (IH (now + 1)%Z) as [Hlen Hpos].
  split; [by rewrite Hlen|].
  intros [|i] r Hi; simpl in Hi.
  - simplify_eq. simpl. lia.
  - apply Hpos in Hi. lia.
Qed.

Lemma Sim_inserts f : Sim.f_rows f = None → inserts (Sim.env f).
Proof.
  intros Hrows t args w rows w' H. simpl in H.
  destruct (Sim.f_query f); [done|]. rewrite Hrows in H. simpl in H.
  simplify_eq. simpl.
  destruct (Sim_insert_rows args (Sim.clock w)) as [Hlen Hpos].
  split; [by rewrite length_fmap|].
  intros i j ri rj Hij Hi Hj.
  rewrite list_lookup_fmap in Hi. rewrite list_lookup_fmap in Hj.
  destruct (Sim.insert_rows args (Sim.clock w) !! i) as [ri'|] eqn:Hi'; [|done].
  destruct (Sim.insert_rows args (Sim.clock w) !! j) as [rj'|] eqn:Hj'; [|done].
  simplify_eq/=. rewrite (Hpos _ _ Hi'), (Hpos _ _ Hj'). lia.
Qed.

Lemma Sim_registers f : registers (Sim.env f).
Proof.
  intros pc w w' H. simpl in H.
  destruct (Sim.f_register f); [done|]. simplify_eq. simpl.
  apply bool_decide_eq_true. by apply elem_of_cons; left.
Qed.

(** ** The claims on the simulated backend *)

(** A call is, or is not, in the trace of a run that is computed. *)
Ltac computed_in := vm_compute; in_here.
Ltac computed_out :=
  let H := fresh "H" in
  intros H; vm_compute in H; in_trace H; discriminate H.

(** On a backend of which the commit fails, [Push] of one command returns
    the event and the error of the commit. *)
Lemma C1_commit_error_not_swallowed :
  result_of (Push (Sim.env Sim.commit_fails) [Sim.cmd1] Sim.start)
  = Ret ([EventPtr (Some 0)], Some "commit failed") ∧
  ¬ commit_error_swallowed (Sim.env Sim.commit_fails) [Sim.cmd1] Sim.start.
Proof.
  split; [by vm_compute|]. intros H.
  destruct (H 2 "commit failed") as [_ [events Hres]]; [computed_in..|].
  vm_compute in Hres. discriminate Hres.
Qed.

Lemma C1_commit_error_returned_run :
  (OpFieldCommands 2 [Sim.cmd1] None
     ∈ ops_of (Push (Sim.env Sim.commit_fails) [Sim.cmd1] Sim.start) ∧
   OpCommit 2 (Some "commit failed")
     ∈ ops_of (Push (Sim.env Sim.commit_fails) [Sim.cmd1] Sim.start)) ∧
  OpWarn "failed to commit transaction" "commit failed"
    ∈ ops_of (Push (Sim.env Sim.commit_fails) [Sim.cmd1] Sim.start) ∧
  ∃ events,
    result_of (Push (Sim.env Sim.commit_fails) [Sim.cmd1] Sim.start)
    = Ret (events, Some "commit failed").
Proof.
  assert (OpFieldCommands 2 [Sim.cmd1] None
     ∈ ops_of (Push (Sim.env Sim.commit_fails) [Sim.cmd1] Sim.start)) as Hf
    by computed_in.
  assert (OpCommit 2 (Some "commit failed")
     ∈ ops_of (Push (Sim.env Sim.commit_fails) [Sim.cmd1] Sim.start)) as Hc
    by computed_in.
  split; [done|].
  destruct (C1_commit_error_returned (Sim.env Sim.commit_fails) [Sim.cmd1]
              Sim.start 2 "commit failed" Hf Hc)
    as (Hw & _ & events & _ & Hres & _).
  split; [done|]. exists events. apply Hres. reflexivity.
Defined.

(** On a backend without faults, [Push] of no command executes the
    bulk-insert statement, in a transaction it begins and commits. *)
Lemma C2_empty_batch_executes_insert :
  OpQuery 2 "push2.sql" [] (inr (mkRows [] None))
    ∈ ops_of (Push (Sim.env Sim.healthy) [] Sim.start) ∧
  ¬ empty_batch_short_circuits (Sim.env Sim.healthy) Sim.start.
Proof.
  split; [computed_in|]. intros [_ H].
  apply (H 2 "push2.sql" [] (inr (mkRows [] None))). computed_in.
Qed.

Lemma C2_empty_batch_runs_the_insert_run :
  result_of (Push (Sim.env Sim.healthy) [] Sim.start) = Ret ([], None) ∧
  ∃ c t payload rows,
    OpBeginTx c readCommittedRW (inr t)
      ∈ ops_of (Push (Sim.env Sim.healthy) [] Sim.start) ∧
    OpCommandsToEvents [] (inr ([], payload))
      ∈ ops_of (Push (Sim.env Sim.healthy) [] Sim.start) ∧
    OpQuery t (push2Stmt (Sim.env Sim.healthy)) payload (inr rows)
      ∈ ops_of (Push (Sim.env Sim.healthy) [] Sim.start) ∧
    OpCommit t None ∈ ops_of (Push (Sim.env Sim.healthy) [] Sim.start) ∧
    (translates (Sim.env Sim.healthy) →
     ([] : list Event) = [] ∧ rows_items rows = []).
Proof.
  assert (result_of (Push (Sim.env Sim.healthy) [] Sim.start) = Ret ([], None))
    as Hres by (by vm_compute).
  split; [done|].
  apply (C2_empty_batch_runs_the_insert (Sim.env Sim.healthy) Sim.start [] Hres).
  intros cs err. computed_out.
Defined.

Lemma C3_fallback_at_most_once_run :
  OpPushWithoutFunc [Sim.cmd1] None
    ∈ ops_of (Push (Sim.env Sim.not_set_up) [Sim.cmd1] Sim.start) ∧
  length (filter fallback_op
            (ops_of (Push (Sim.env Sim.not_set_up) [Sim.cmd1] Sim.start))) ≤ 1 ∧
  result_of (Push (Sim.env Sim.unique_fails) [Sim.cmd1] Sim.start)
  = Ret ([], Some "unique constraint violated").
Proof.
  split; [computed_in|]. split.
  - apply (C3_fallback_at_most_once (Sim.env Sim.not_set_up) [Sim.cmd1] Sim.start).
  - apply (C3_fallback_at_most_once (Sim.env Sim.unique_fails) [Sim.cmd1] Sim.start);
      by vm_compute.
Defined.

Lemma C4_push_scatters_rows_run :
  result_of (Push (Sim.env Sim.healthy) [Sim.cmd1; Sim.cmd2] Sim.start)
  = Ret ([EventPtr (Some 0); EventPtr (Some 1)], None) ∧
  ∀ i j pi pj ei ej, i < j →
    [EventPtr (Some 0); EventPtr (Some 1)] !! i = Some (EventPtr (Some pi)) →
    [EventPtr (Some 0); EventPtr (Some 1)] !! j = Some (EventPtr (Some pj)) →
    heap (state_of (Push (Sim.env Sim.healthy) [Sim.cmd1; Sim.cmd2] Sim.start))
      !! pi = Some ei →
    heap (state_of (Push (Sim.env Sim.healthy) [Sim.cmd1; Sim.cmd2] Sim.start))
      !! pj = Some ej →
    (position ei < position ej)%Z.
Proof.
  assert (result_of (Push (Sim.env Sim.healthy) [Sim.cmd1; Sim.cmd2] Sim.start)
          = Ret ([EventPtr (Some 0); EventPtr (Some 1)], None)) as Hres
    by (by vm_compute).
  split; [done|].
  destruct (C4_push_scatters_rows (Sim.env Sim.healthy) [Sim.cmd1; Sim.cmd2]
              Sim.start _ (Sim_translates Sim.healthy)
              (Sim_inserts Sim.healthy eq_refl) Hres) as (_ & _ & Hinc);
    [intros cs err; computed_out|exact Hinc].
Defined.

Lemma C5_step_error_rolls_back_run :
  (OpUniqueConstraints 2 [Sim.cmd1] (Some "unique constraint violated")
     ∈ ops_of (Eventstore_writeEvents (Sim.env Sim.unique_fails) [Sim.cmd1] Sim.start) ∧
   step_failed "unique constraint violated"
     (OpUniqueConstraints 2 [Sim.cmd1] (Some "unique constraint violated"))) ∧
  result_of (Eventstore_writeEvents (Sim.env Sim.unique_fails) [Sim.cmd1] Sim.start)
  = Ret ([], Some "unique constraint violated") ∧
  OpRollback 2 (Some "rollback failed")
    ∈ ops_of (Eventstore_writeEvents (Sim.env Sim.unique_fails) [Sim.cmd1] Sim.start) ∧
  ∀ t ec,
    OpCommit t ec
      ∉ ops_of (Eventstore_writeEvents (Sim.env Sim.unique_fails) [Sim.cmd1] Sim.start).
Proof.
  assert (OpUniqueConstraints 2 [Sim.cmd1] (Some "unique constraint violated")
     ∈ ops_of (Eventstore_writeEvents (Sim.env Sim.unique_fails) [Sim.cmd1] Sim.start))
    as Hin by computed_in.
  assert (step_failed "unique constraint violated"
     (OpUniqueConstraints 2 [Sim.cmd1] (Some "unique constraint violated")))
    as Hf by reflexivity.
  split; [done|].
  destruct (C5_step_error_rolls_back (Sim.env Sim.unique_fails) [Sim.cmd1] Sim.start
              _ _ Hin Hf) as (Hres & _ & Hnc & _).
  split; [done|]. split; [computed_in|done].
Defined.

Lemma C6_probe_registers_once_run :
  OpRegisterTypes 7 None
    ∈ ops_of (Push (Sim.env Sim.healthy) [Sim.cmd1] Sim.start) ∧
  ∀ pc er,
    OpRegisterTypes pc er
      ∉ ops_of (Push (Sim.env Sim.healthy) [Sim.cmd2]
                  (state_of (Push (Sim.env Sim.healthy) [Sim.cmd1] Sim.start))).
Proof.
  split; [computed_in|].
  destruct (C6_probe_registers_once (Sim.env Sim.healthy) [Sim.cmd2] 1
              (state_of (Push (Sim.env Sim.healthy) [Sim.cmd1] Sim.start)))
    as (_ & _ & _ & _ & _ & Hcapable).
  apply (Hcapable 1
           (world (state_of (Push (Sim.env Sim.healthy) [Sim.cmd1] Sim.start))) 7);
    by vm_compute.
Defined.

Lemma C7_accommodation_on_cockroach_run :
  (∃ e, OpExec 2 "SET enable_multiple_modifications_of_table = on" e
        ∈ ops_of (Eventstore_writeEvents (Sim.env Sim.cockroach) [Sim.cmd1]
                    Sim.start)) ∧
  Forall (λ o, ¬ exec_op o)
    (ops_of (Eventstore_writeEvents (Sim.env Sim.healthy) [Sim.cmd1] Sim.start)) ∧
  all_before unique_op exec_op
    (ops_of (Eventstore_writeEvents (Sim.env Sim.cockroach) [Sim.cmd1] Sim.start)) ∧
  all_before exec_op field_op
    (ops_of (Eventstore_writeEvents (Sim.env Sim.cockroach) [Sim.cmd1] Sim.start)).
Proof.
  destruct (C7_accommodation_on_cockroach (Sim.env Sim.cockroach) [Sim.cmd1]
              Sim.start) as (_ & Hexec & _ & _ & Hue & Hef & _).
  split; [|split; [|split]].
  - apply (Hexec eq_refl 2 [Sim.cmd1]). computed_in.
  - by apply (C7_accommodation_on_cockroach (Sim.env Sim.healthy) [Sim.cmd1] Sim.start).
  - exact Hue.
  - exact Hef.
Defined.

Lemma C8_begin_read_committed_run :
  OpBeginTx 1 readCommittedRW (inl "too many connections")
    ∈ ops_of (Eventstore_writeEvents (Sim.env Sim.begin_fails) [Sim.cmd1] Sim.start) ∧
  result_of (Eventstore_writeEvents (Sim.env Sim.begin_fails) [Sim.cmd1] Sim.start)
  = Ret ([], Some "too many connections") ∧
  Forall (λ o, ¬ tx_op o)
    (ops_of (Eventstore_writeEvents (Sim.env Sim.begin_fails) [Sim.cmd1] Sim.start)) ∧
  result_of (Push (Sim.env Sim.begin_fails) [Sim.cmd1] Sim.start)
  = Ret ([], Some "too many connections").
Proof.
  assert (OpBeginTx 1 readCommittedRW (inl "too many connections")
    ∈ ops_of (Eventstore_writeEvents (Sim.env Sim.begin_fails) [Sim.cmd1] Sim.start))
    as Hin by computed_in.
  split; [done|].
  destruct (C8_begin_read_committed (Sim.env Sim.begin_fails) [Sim.cmd1] Sim.start)
    as (_ & _ & Hfail).
  destruct (Hfail _ _ _ Hin) as (Hres & Hnone & Hpush).
  split; [done|]. split; [done|]. by apply Hpush.
Defined.

Lemma C9_scan_panic_freedom_run :
  (∀ a n,
     result_of (writeEvents (Sim.env Sim.healthy) 2 [Sim.cmd1; Sim.cmd2] Sim.start)
     ≠ Panic (PanicIndexOutOfRange a n)) ∧
  result_of (writeEvents (Sim.env Sim.healthy) 2 [Sim.cmd1; Sim.cmd2] Sim.start)
  ≠ Panic PanicTypeAssertion.
Proof.
  apply (C9_scan_panic_freedom (Sim.env Sim.healthy) [Sim.cmd1; Sim.cmd2] 2
           Sim.start).
  intros events payload h1 rows w1 Htr Hq.
  vm_compute in Htr. injection Htr as <- <- <-.
  vm_compute in Hq. injection Hq as <- <-.
  split; [reflexivity|]. split; [|simpl; lia].
  intros ev Hev. in_trace Hev; subst; by eexists.
Defined.

(** When the backend answers more rows than the slice has events, the scan
    panics on the index; the deferred closure then finds no error and
    commits. *)
Example too_many_rows_panic :
  result_of (Push (Sim.env Sim.too_many_rows) [Sim.cmd1] Sim.start)
  = Panic (PanicIndexOutOfRange 1 1) ∧
  OpCommit 2 None ∈ ops_of (Push (Sim.env Sim.too_many_rows) [Sim.cmd1] Sim.start).
Proof. split; [by vm_compute|computed_in]. Qed.

Lemma C10_events_with_commit_error_run :
  (OpFieldCommands 2 [Sim.cmd1; Sim.cmd2] None
     ∈ ops_of (Eventstore_writeEvents (Sim.env Sim.commit_fails)
                 [Sim.cmd1; Sim.cmd2] Sim.start) ∧
   OpCommit 2 (Some "commit failed")
     ∈ ops_of (Eventstore_writeEvents (Sim.env Sim.commit_fails)
                 [Sim.cmd1; Sim.cmd2] Sim.start)) ∧
  ∃ events,
    events ≠ [] ∧ length events = 2 ∧
    (∀ i x, events !! i = Some x →
       ∃ p ev r,
         x = EventPtr (Some p) ∧
         heap (state_of (Eventstore_writeEvents (Sim.env Sim.commit_fails)
                           [Sim.cmd1; Sim.cmd2] Sim.start)) !! p = Some ev ∧
         createdAt ev = row_createdAt r ∧ sequence ev = row_sequence r ∧
         position ev = row_position r) ∧
    result_of (Eventstore_writeEvents (Sim.env Sim.commit_fails)
                 [Sim.cmd1; Sim.cmd2] Sim.start)
    = Ret (events, Some "commit failed") ∧
    result_of (Push (Sim.env Sim.commit_fails) [Sim.cmd1; Sim.cmd2] Sim.start)
    = Ret (events, Some "commit failed").
Proof.
  assert (OpFieldCommands 2 [Sim.cmd1; Sim.cmd2] None
     ∈ ops_of (Eventstore_writeEvents (Sim.env Sim.commit_fails)
                 [Sim.cmd1; Sim.cmd2] Sim.start))
    as Hf by computed_in.
  assert (OpCommit 2 (Some "commit failed")
     ∈ ops_of (Eventstore_writeEvents (Sim.env Sim.commit_fails)
                 [Sim.cmd1; Sim.cmd2] Sim.start))
    as Hc by computed_in.
  split; [done|].
  destruct (C10_events_with_commit_error (Sim.env Sim.commit_fails)
              [Sim.cmd1; Sim.cmd2] Sim.start 2 "commit failed" Hf Hc)
    as (events & payload & Hres & _ & _ & Hne & Hfill & _ & Hpush).
  destruct (Hfill (Sim_translates Sim.commit_fails)
              (Sim_inserts Sim.commit_fails eq_refl))
    as (Hlen & rows & _ & _ & Hrows).
  exists events. split; [|split; [done|split; [|split; [done|]]]].
  - apply Hne; [apply Sim_translates|done].
  - intros i x Hx.
    destruct (Hrows i x Hx) as (c & p & ev & r & _ & -> & Hp & _ & _ & Hfields).
    by exists p, ev, r.
  - by apply Hpush.
Defined.

(** ** More on the traces of the package *)

(** The calls on the connection pool. *)
Definition conn_op (o : Op) : Prop :=
  match o with OpConn _ | OpConnClose _ => True | _ => False end.

(** What may follow the end of the transaction in the method. *)
Definition closing_op (o : Op) : Prop :=
  match o with
  | OpWarn "failed to commit transaction" _ | OpConnClose _ => True
  | _ => False
  end.

(** The transaction a call is made on, for the calls made on one. *)
Definition tx_of (o : Op) : option tx :=
  match o with
  | OpQuery t _ _ _ | OpUniqueConstraints t _ _ | OpExec t _ _
  | OpFieldCommands t _ _ | OpRollback t _ | OpCommit t _ => Some t
  | _ => None
  end.

(** The error the probe ended with. *)
Definition probe_failed (e : error) (o : Op) : Prop :=
  match o with
  | OpRaw _ (inl e') | OpRegisterTypes _ (Some e') => e' = e
  | _ => False
  end.

Section Shape.
Context {W : Type} (E : Env W).
Implicit Types (s : state W) (cmds : list Command).

(** The statements under the deferred closure never end the transaction,
    call everything on the transaction they are given, and return no event
    with an error. *)
Lemma txBody_facts t cmds s :
  Forall (λ o, ¬ end_op o) (ops_of (txBody E t cmds s)) ∧
  Forall (λ o, ∀ t', tx_of o = Some t' → t' = t) (ops_of (txBody E t cmds s)) ∧
  Forall tx_op (ops_of (txBody E t cmds s)) ∧
  ∀ events e, result_of (txBody E t cmds s) = Ret (events, Some e) → events = [].
Proof.
  paths.
  all: try match goal with
       | Hs : scanRows _ _ _ _ = _ |- _ =>
           pose proof (scanRows_ops _ _ _ _ _ _ _ Hs)
       end.
  all: repeat match goal with |- _ ∧ _ => split end.
  all: try (intros ?? [=]; by subst).
  all: rewrite <-?app_assoc; simpl.
  all: repeat first
         [ apply Forall_nil_2
         | apply Forall_cons_2; [solve [simpl; tauto | by intros ? [=]]|]
         | apply Forall_app_2
         | solve [ eapply Forall_impl; [eassumption|];
                   let o := fresh "o" in
                   intros o; destruct o; simpl; solve [tauto|done] ] ].
Qed.


(** The trace of the transaction: the statements, then the one call that
    ends it, a rollback when the statements returned an error and a commit
    otherwise, also when they panicked. *)
Lemma transaction_end t cmds s :
  ∃ fin tail,
    ops_of (transaction E t cmds s) = ops_of (txBody E t cmds s) ++ fin :: tail ∧
    match result_of (txBody E t cmds s) with
    | Ret (_, Some e) =>
        (∃ er, fin = OpRollback t er) ∧ tail = [] ∧
        result_of (transaction E t cmds s) = Ret ([], Some e)
    | Ret (events, None) =>
        ∃ ec, fin = OpCommit t ec ∧
          tail = match ec with
                 | Some e => [OpWarn "failed to commit transaction" e]
                 | None => []
                 end ∧
          result_of (transaction E t cmds s) = Ret (events, ec)
    | Panic p =>
        ∃ ec, fin = OpCommit t ec ∧
          tail = match ec with
                 | Some e => [OpWarn "failed to commit transaction" e]
                 | None => []
                 end ∧
          result_of (transaction E t cmds s) = Panic p
    end.
Proof.
  destruct (txBody_facts t cmds s) as (_ & _ & _ & Hnil).
  revert Hnil. unfold result_of, ops_of. rewrite transaction_run.
  destruct (txBody E t cmds s) as [[[[events [e|]]|p] s4] o4]; simpl; intros Hnil.
  - rewrite txDeferred_run.
    destruct (tx_Rollback E t (world s4)) as [er w]; simpl.
    rewrite (Hnil events e eq_refl). exists (OpRollback t er), []. eauto.
  - rewrite txDeferred_run.
    destruct (tx_Commit E t (world s4)) as [ec w]; simpl.
    eexists _, _. split; [done|]. by exists ec.
  - rewrite txDeferred_run.
    destruct (tx_Commit E t (world s4)) as [ec w]; simpl.
    eexists _, _. split; [done|]. by exists ec.
Qed.

(** The trace of the method once [BeginTx] succeeded: the connection, the
    probe, [BeginTx], the transaction, [Close]. *)
Lemma primary_begun cmds s c opts t :
  OpBeginTx c opts (inr t) ∈ ops_of (Eventstore_writeEvents E cmds s) →
  ∃ probe s0,
    opts = readCommittedRW ∧
    ops_of (Eventstore_writeEvents E cmds s)
    = OpConn (inr c) :: probe ++ OpBeginTx c readCommittedRW (inr t)
        :: ops_of (transaction E t cmds s0) ++ [OpConnClose c] ∧
    Forall probe_op probe ∧
    result_of (Eventstore_writeEvents E cmds s)
    = result_of (transaction E t cmds s0) ∧
    state_of (Eventstore_writeEvents E cmds s)
    = closed E c (state_of (transaction E t cmds s0)).
Proof.
  outer.
  all: intros Hin; in_trace Hin; try discriminate Hin.
  all: try (segment Hin; by simpl in * ).
  all: simplify_eq.
  match goal with H : transaction _ _ _ ?s0 = (_, _, _), HP : Forall probe_op ?l |- _ =>
    exists l, s0; rewrite H; simpl end.
  repeat split; try done. trace_eq.
Qed.

End Shape.

(** ** More on the row scan *)

(** Case analysis on one turn of a run [H] of the loop; the run of the rest
    of the loop is named [Hrest]. *)
Ltac scan_turn H Hrest :=
  match type of H with
  | scanRows (?item :: ?rest) ?i ?events ?s = _ =>
      let Hev := fresh "Hev" in
      destruct (events !! i) as [[|[?p|]|?tag]|] eqn:Hev;
      [ rewrite (scanRows_not_event _ _ _ _ _ _ Hev) in H by done
      | destruct item as [[?e ?a]|?r];
        [ rewrite (scanRows_scan_fails _ _ _ _ _ _ _ Hev) in H
        | rewrite (scanRows_scan_ok _ _ _ _ _ _ Hev) in H;
          destruct (scanRows rest (S i) events _) as [[? ?] ?] eqn:Hrest ]
      | rewrite (scanRows_nil_event _ _ _ _ _ Hev) in H
      | rewrite (scanRows_not_event _ _ _ _ _ _ Hev) in H by done
      | rewrite (scanRows_out_of_range _ _ _ _ _ Hev) in H ];
      simplify_eq
  end.

Section ScanMore.
Context {W : Type}.
Implicit Types (items : list (error * assigned + row)) (events : list Event) (s : state W).

(** The loop runs to the end when every row scans and has an event to be
    scanned into. *)
Lemma scanRows_succeeds items : ∀ i events s,
  (∀ k item, items !! k = Some item →
     ∃ r p, item = inr r ∧ events !! (i + k) = Some (EventPtr (Some p))) →
  ∃ s' ops, scanRows items i events s = (Ret None, s', ops).
Proof.
  induction items as [|item rest IH]; intros i events s Hall.
  { by eexists _, _. }
  destruct (Hall 0 item eq_refl) as (r & p & -> & Hev).
  rewrite Nat.add_0_r in Hev.
  rewrite (scanRows_scan_ok _ _ _ _ _ _ Hev).
  destruct (IH (S i) events
              (mkstate (world s) (alter (scan_into r) p (heap s))))
    as (s' & ops & Hrest).
  { intros k item Hk. destruct (Hall (S k) item Hk) as (r' & p' & -> & Hev').
    exists r', p'. split; [done|]. by replace (S i + k) with (i + S k) by lia. }
  rewrite Hrest. by eexists _, _.
Qed.

(** The scans are numbered from the first index on, and a scan that fails
    is the last. *)
Lemma scanRows_indices items : ∀ i events s res s' ops j err,
  scanRows items i events s = (res, s', ops) →
  OpScan j err ∈ ops →
  i ≤ j < i + length items ∧
  ∀ j' e, OpScan j' (Some e) ∈ ops → j ≤ j'.
Proof.
  induction items as [|item rest IH]; intros i events s res s' ops j err H Hin.
  { rewrite scanRows_nil in H. simplify_eq. by apply elem_of_nil in Hin. }
  scan_turn H Hrest; try by apply elem_of_nil in Hin.
  - apply elem_of_cons in Hin as [Hin|Hin].
    + simplify_eq. split; [simpl; lia|]. intros j' e' Hin'.
      apply elem_of_cons in Hin' as [Hin'|Hin']; [by simplify_eq|].
      apply elem_of_cons in Hin' as [Hin'|Hin']; [done|by apply elem_of_nil in Hin'].
    + apply elem_of_cons in Hin as [Hin|Hin]; [done|by apply elem_of_nil in Hin].
  - apply elem_of_cons in Hin as [Hin|Hin].
    + simplify_eq. split; [simpl; lia|]. intros j' e' Hin'.
      apply elem_of_cons in Hin' as [Hin'|Hin']; [done|].
      destruct (IH _ _ _ _ _ _ _ _ Hrest Hin') as [? _]. lia.
    + destruct (IH _ _ _ _ _ _ _ _ Hrest Hin) as [? Hlast].
      split; [simpl; lia|]. intros j' e' Hin'.
      apply elem_of_cons in Hin' as [Hin'|Hin']; [done|]. by eapply Hlast.
Qed.

(** The loop panics on a nil pointer only at a slot, reached by a row, that
    holds the nil [*event]. *)
Lemma scanRows_nil_panic items : ∀ i events s s' ops,
  scanRows items i events s = (Panic PanicNilDereference, s', ops) →
  ∃ a, i ≤ a < i + length items ∧ events !! a = Some (EventPtr None).
Proof.
  induction items as [|item rest IH]; intros i events s s' ops H.
  { by rewrite scanRows_nil in H. }
  scan_turn H Hrest.
  - apply IH in Hrest as (a & ? & ?). exists a. simpl. split; [lia|done].
  - exists i. simpl. split; [lia|done].
Qed.

End ScanMore.

(** Case analysis on the calls of the method with the probe written out;
    the transaction is kept as a run. *)
Ltac outer_probe :=
  unfold result_of, ops_of, state_of;
  repeat first
    [ rewrite Push_run | rewrite Eventstore_writeEvents_run
    | rewrite checkExecutionPlan_run
    | progress simpl | case_path ];
  repeat match goal with
    | H : transaction ?E ?t ?cmds ?s = (_, _, ?l) |- _ =>
        lazymatch goal with
        | _ : Forall tx_op l |- _ => fail
        | _ => let HF := fresh "Htxops" in
               pose proof (transaction_ops E t cmds s) as HF;
               unfold ops_of in HF; rewrite H in HF; simpl in HF
        end
    end.

Section Extras.
Context {W : Type} (E : Env W).
Implicit Types (s : state W) (cmds : list Command).

(** X1: a connection that was acquired is closed: [Close] is the last call
    of the method, made once, on that connection, on every path, a panic
    included; no second connection is acquired. *)
Theorem connection_always_closed cmds s c :
  OpConn (inr c) ∈ ops_of (Eventstore_writeEvents E cmds s) →
  ∃ mid,
    ops_of (Eventstore_writeEvents E cmds s)
    = OpConn (inr c) :: mid ++ [OpConnClose c] ∧
    Forall (λ o, ¬ conn_op o) mid.
Proof.
  outer.
  all: intros Hin; in_trace Hin; try discriminate Hin.
  all: try (segment Hin; by simpl in * ).
  all: simplify_eq.
  all: lazymatch goal with
       | |- ∃ mid, OpConn _ :: (?l ++ ?m) ++ ?n ++ [OpConnClose _] = _ ∧ _ =>
           exists ((l ++ m) ++ n)
       | |- ∃ mid, OpConn _ :: (?l ++ ?m) ++ [OpConnClose _] = _ ∧ _ =>
           exists (l ++ m)
       | |- ∃ mid, OpConn _ :: ?l ++ [OpConnClose _] = _ ∧ _ => exists l
       end.
  all: split; [trace_eq|none_of].
Qed.

(** X2: when no connection can be acquired the method calls nothing else,
    neither probe nor transaction nor [Close], leaves the events alone and
    returns the error; so does [Push], within its span, unless the error is
    classified as setup-not-executed. *)
Theorem acquisition_failure cmds s e :
  OpConn (inl e) ∈ ops_of (Eventstore_writeEvents E cmds s) →
  result_of (Eventstore_writeEvents E cmds s) = Ret ([], Some e) ∧
  ops_of (Eventstore_writeEvents E cmds s) = [OpConn (inl e)] ∧
  heap (state_of (Eventstore_writeEvents E cmds s)) = heap s ∧
  (isSetupNotExecutedError E (Some e) = false →
   result_of (Push E cmds s) = Ret ([], Some e) ∧
   ops_of (Push E cmds s) = [OpSpanStart; OpConn (inl e); OpSpanEnd (Some e)]).
Proof.
  outer.
  all: intros Hin; in_trace Hin; try discriminate Hin.
  all: try (segment Hin; by simpl in * ).
  all: simplify_eq.
  all: repeat split; try done; intros; congruence.
Qed.

(** X3: a transaction that was begun is ended once: one call of [Rollback]
    or [Commit], on that transaction, after every other call of the
    transaction; what follows is at most the warning of the failed commit
    and the [Close] of the connection. *)
Theorem transaction_ended_once cmds s c opts t :
  OpBeginTx c opts (inr t) ∈ ops_of (Eventstore_writeEvents E cmds s) →
  ∃ l1 fin l2,
    ops_of (Eventstore_writeEvents E cmds s) = l1 ++ fin :: l2 ∧
    ((∃ er, fin = OpRollback t er) ∨ (∃ ec, fin = OpCommit t ec)) ∧
    Forall (λ o, ¬ end_op o) l1 ∧
    Forall closing_op l2.
Proof.
  intros Hb.
  destruct (primary_begun E cmds s c opts t Hb) as (probe & s0 & _ & Hops & Hprobe & _).
  destruct (transaction_end E t cmds s0) as (fin & tail & Htx & Hfin).
  destruct (txBody_facts E t cmds s0) as (Hbody & _).
  exists (OpConn (inr c) :: probe ++ OpBeginTx c readCommittedRW (inr t)
            :: ops_of (txBody E t cmds s0)), fin, (tail ++ [OpConnClose c]).
  split; [rewrite Hops, Htx; trace_eq|].
  destruct (result_of (txBody E t cmds s0)) as [[events [e|]]|p].
  - destruct Hfin as ([er ->] & -> & _).
    split; [by eauto|]. split; [none_of|]. by repeat constructor.
  - destruct Hfin as (ec & -> & -> & _).
    split; [by eauto|]. split; [none_of|]. destruct ec; by repeat constructor.
  - destruct Hfin as (ec & -> & -> & _).
    split; [by eauto|]. split; [none_of|]. destruct ec; by repeat constructor.
Qed.

(** X4: when the method panics in a transaction it has begun, the deferred
    closure finds no error and commits: [Commit] is called on that
    transaction, [Rollback] is not, and the panic goes on through [Push]. *)
Theorem panic_in_transaction_commits cmds s c opts t p :
  OpBeginTx c opts (inr t) ∈ ops_of (Eventstore_writeEvents E cmds s) →
  result_of (Eventstore_writeEvents E cmds s) = Panic p →
  (∃ ec, OpCommit t ec ∈ ops_of (Eventstore_writeEvents E cmds s)) ∧
  (∀ t' er, OpRollback t' er ∉ ops_of (Eventstore_writeEvents E cmds s)) ∧
  OpConnClose c ∈ ops_of (Eventstore_writeEvents E cmds s) ∧
  result_of (Push E cmds s) = Panic p.
Proof.
  intros Hb Hp.
  destruct (primary_begun E cmds s c opts t Hb)
    as (probe & s0 & _ & Hops & Hprobe & Hres & _).
  destruct (transaction_end E t cmds s0) as (fin & tail & Htx & Hfin).
  destruct (txBody_facts E t cmds s0) as (Hbody & _).
  rewrite Hres in Hp.
  destruct (result_of (txBody E t cmds s0)) as [[events [e|]]|q].
  - destruct Hfin as (_ & _ & Hr). congruence.
  - destruct Hfin as (ec & _ & _ & Hr). congruence.
  - destruct Hfin as (ec & -> & -> & Hr).
    rewrite Hops, Htx. repeat split.
    + exists ec. in_here.
    + intros t' er Hin. in_trace Hin; try discriminate Hin.
      * segment Hin. by simpl in *.
      * segment Hin. by simpl in *.
      * destruct ec; in_trace Hin; discriminate Hin.
    + in_here.
    + revert Hres Hp. unfold result_of. rewrite Push_run.
      destruct (Eventstore_writeEvents E cmds s) as [[rw s1] o1]; simpl.
      by intros -> ->.
Qed.

(** X5: once the bulk insert has answered rows, they are closed: [Close] of
    the rows is called once, after every scan, as the last call before the
    span of the function ends, whether the function returns events, returns
    an error or panics; the span ends with the error returned, and with none
    on a panic. *)
Theorem rows_always_closed t cmds s t' stmt args rows :
  OpQuery t' stmt args (inr rows) ∈ ops_of (writeEvents E t cmds s) →
  ∃ pre err,
    ops_of (writeEvents E t cmds s) = pre ++ [OpRowsClose; OpSpanEnd err] ∧
    Forall (λ o, o ≠ OpRowsClose) pre ∧
    match result_of (writeEvents E t cmds s) with
    | Ret (_, e) => err = e
    | Panic _ => err = None
    end.
Proof.
  unfold result_of, ops_of. rewrite writeEvents_run.
  destruct (commandsToEvents E cmds (heap s)) as [[e|[events payload]] h1]; simpl.
  { intros Hin. in_trace Hin; discriminate Hin. }
  destruct (tx_QueryContext E t (push2Stmt E) payload (world s))
    as [[e|rows0] w1]; simpl.
  { intros Hin. in_trace Hin; discriminate Hin. }
  destruct (scanRows (rows_items rows0) 0 events _) as [[[[e|]|q] s2] scans] eqn:Hs;
    simpl; intros _.
  all: pose proof (scanRows_ops _ _ _ _ _ _ _ Hs) as Hscans.
  all: assert (Forall (λ o, o ≠ OpRowsClose) scans) as Hnc
    by (eapply Forall_impl; [exact Hscans|]; by intros []).
  - eexists (_ :: _ :: _ :: scans), _. split; [done|]. split; [|done].
    repeat (apply Forall_cons_2; [done|]). done.
  - destruct (rows_Err rows0) as [e|]; simpl.
    + eexists (_ :: _ :: _ :: scans ++ [_]), _. split; [trace_eq|]. split; [|done].
      repeat (apply Forall_cons_2; [done|]). apply Forall_app_2; [done|].
      by repeat constructor.
    + eexists (_ :: _ :: _ :: scans ++ [_]), _. split; [trace_eq|]. split; [|done].
      repeat (apply Forall_cons_2; [done|]). apply Forall_app_2; [done|].
      by repeat constructor.
  - eexists (_ :: _ :: _ :: scans), _. split; [done|]. split; [|done].
    repeat (apply Forall_cons_2; [done|]). done.
Qed.

(** X6: the number of rows is not checked.  When every row the bulk insert
    answers scans and has an event at its index, the function returns the
    events of the translator without an error, however few the rows are,
    and an event that no row was scanned into is left as the translator
    made it. *)
Theorem short_answer_accepted t cmds s events payload h1 rows w1 :
  commandsToEvents E cmds (heap s) = (inr (events, payload), h1) →
  tx_QueryContext E t (push2Stmt E) payload (world s) = (inr rows, w1) →
  rows_Err rows = None →
  (∀ k item, rows_items rows !! k = Some item →
     ∃ r p, item = inr r ∧ events !! k = Some (EventPtr (Some p))) →
  result_of (writeEvents E t cmds s) = Ret (events, None) ∧
  ∀ q, (∀ k, k < length (rows_items rows) →
          events !! k ≠ Some (EventPtr (Some q))) →
       heap (state_of (writeEvents E t cmds s)) !! q = h1 !! q.
Proof.
  intros Htr Hq Herr Hall.
  destruct (scanRows_succeeds (rows_items rows) 0 events (mkstate w1 h1) Hall)
    as (s2 & scans & Hs).
  unfold result_of, state_of. rewrite writeEvents_run, Htr. simpl.
  rewrite Hq. simpl. rewrite Hs, Herr. simpl. split; [done|].
  intros q Hfree. by rewrite (scanRows_frame _ _ _ _ _ _ _ q Hs).
Qed.

(** X7: a scan that fails ends the function: it is the last scan, the
    warning is logged, [Err] of the rows is not asked, the rows are closed,
    and the error of the scan is returned with no event. *)
Theorem scan_failure_ends_the_scan t cmds s i e :
  OpScan i (Some e) ∈ ops_of (writeEvents E t cmds s) →
  result_of (writeEvents E t cmds s) = Ret ([], Some e) ∧
  OpWarn "failed to scan events" e ∈ ops_of (writeEvents E t cmds s) ∧
  (∀ j err, OpScan j err ∈ ops_of (writeEvents E t cmds s) → j ≤ i) ∧
  (∀ err, OpRowsErr err ∉ ops_of (writeEvents E t cmds s)) ∧
  OpRowsClose ∈ ops_of (writeEvents E t cmds s).
Proof.
  unfold result_of, ops_of. rewrite writeEvents_run.
  destruct (commandsToEvents E cmds (heap s)) as [[e0|[events payload]] h1]; simpl.
  { intros Hin. in_trace Hin; discriminate Hin. }
  destruct (tx_QueryContext E t (push2Stmt E) payload (world s))
    as [[e0|rows] w1]; simpl.
  { intros Hin. in_trace Hin; discriminate Hin. }
  destruct (scanRows (rows_items rows) 0 events _) as [[res s2] scans] eqn:Hs.
  pose proof (scanRows_ops _ _ _ _ _ _ _ Hs) as Hscans.
  assert (OpScan i (Some e) ∈ scans → res = Ret (Some e)) as Hres
    by (intros; by eapply scanRows_failed).
  assert (OpScan i (Some e) ∈ scans →
          ∀ j err, OpScan j err ∈ scans → j ≤ i) as Hlast.
  { intros Hin j err Hj.
    destruct (scanRows_indices _ _ _ _ _ _ _ _ _ Hs Hj) as [_ Hle]. by eapply Hle. }
  assert (OpScan i (Some e) ∈ scans →
          OpWarn "failed to scan events" e ∈ scans) as Hwarn.
  { intros Hin. rewrite (Hres Hin) in Hs.
    by destruct (scanRows_error _ _ _ _ _ _ _ Hs) as (j & _ & ?). }
  destruct res as [[e0|]|q]; simpl.
  - intros Hin. in_trace Hin; try discriminate Hin.
    pose proof (Hres Hin) as [= ->].
    split; [done|]. split; [specialize (Hwarn Hin); in_here|].
    split; [|split; [|in_here]].
    + intros j err Hj. in_trace Hj; try discriminate Hj. by eapply Hlast.
    + intros err Hj. in_trace Hj; try discriminate Hj. segment Hj. by simpl in *.
  - destruct (rows_Err rows); simpl; intros Hin; in_trace Hin;
      try discriminate Hin; by pose proof (Hres Hin).
  - intros Hin; in_trace Hin; try discriminate Hin; by pose proof (Hres Hin).
Qed.

(** X8: no panic at all.  When the translator yields non-nil [*event]
    values only and the backend answers at most as many rows as there are
    events, the function [writeEvents] returns. *)
Theorem writeEvents_returns t cmds s :
  (∀ events payload h1 rows w1,
     commandsToEvents E cmds (heap s) = (inr (events, payload), h1) →
     tx_QueryContext E t (push2Stmt E) payload (world s) = (inr rows, w1) →
     (∀ ev, ev ∈ events → ∃ p, ev = EventPtr (Some p)) ∧
     length (rows_items rows) ≤ length events) →
  ∃ events err, result_of (writeEvents E t cmds s) = Ret (events, err).
Proof.
  intros Hpre.
  destruct (result_of (writeEvents E t cmds s)) as [[events err]|p] eqn:Hres;
    [by eauto|].
  destruct (writeEvents_panics E t cmds s _ Hres)
    as (events & payload & h1 & rows & w1 & s2 & scans & Htr & Hq & Hs & _).
  destruct (Hpre _ _ _ _ _ Htr Hq) as [Hall Hlen].
  destruct p as [a n| |].
  - apply scanRows_index_panic in Hs as (Ha & Hnone & _).
    apply lookup_ge_None in Hnone. lia.
  - apply scanRows_assertion_panic in Hs as (a & ev & _ & Hev & Hne).
    destruct (Hall ev) as [p ->]; [by eapply list_elem_of_lookup_2|].
    by destruct (Hne (Some p)).
  - apply scanRows_nil_panic in Hs as (a & _ & Hev).
    destruct (Hall (EventPtr None)) as [p [=]]. by eapply list_elem_of_lookup_2.
Qed.

(** X9: a nil [*event] is not guarded against: the function panics on a nil
    pointer exactly at a slot reached by a row that holds the nil pointer,
    an element that passes the type assertion. *)
Theorem nil_event_panics t cmds s :
  result_of (writeEvents E t cmds s) = Panic PanicNilDereference →
  ∃ events payload rows a,
    OpCommandsToEvents cmds (inr (events, payload))
      ∈ ops_of (writeEvents E t cmds s) ∧
    OpQuery t (push2Stmt E) payload (inr rows) ∈ ops_of (writeEvents E t cmds s) ∧
    a < length (rows_items rows) ∧ events !! a = Some (EventPtr None).
Proof.
  intros Hres.
  destruct (writeEvents_panics E t cmds s _ Hres)
    as (events & payload & h1 & rows & w1 & s2 & scans & _ & _ & Hs & Hc & Hq).
  apply scanRows_nil_panic in Hs as (a & Ha & Hev).
  exists events, payload, rows, a. repeat split; try done. lia.
Qed.

(** X10: when the probe ends with an error, of [Raw] or of the
    registration, the method returns that error, begins no transaction,
    makes no call of one, and closes the connection; [Push] returns the
    error unless it is classified as setup-not-executed. *)
Theorem probe_error_returned cmds s o e :
  o ∈ ops_of (Eventstore_writeEvents E cmds s) → probe_failed e o →
  result_of (Eventstore_writeEvents E cmds s) = Ret ([], Some e) ∧
  Forall (λ o, ¬ begin_op o ∧ ¬ tx_op o) (ops_of (Eventstore_writeEvents E cmds s)) ∧
  (∃ c, OpConnClose c ∈ ops_of (Eventstore_writeEvents E cmds s)) ∧
  (isSetupNotExecutedError E (Some e) = false →
   result_of (Push E cmds s) = Ret ([], Some e)).
Proof.
  outer_probe.
  all: intros Hin Hf; in_trace Hin; subst; simpl in Hf; try done.
  all: try (segment Hin; by destruct o).
  all: subst.
  all: repeat match goal with |- _ ∧ _ => split end; try done.
  all: try (repeat constructor; simpl; tauto).
  all: try (eexists; in_here).
  all: intros; congruence.
Qed.

(** X11: on a connection of another driver than pgx the probe panics on
    its type assertion: nothing is looked up or registered, no transaction
    is begun, the connection is closed, and [Push] panics, its span ended
    with no error. *)
Theorem foreign_driver_panics cmds s c :
  OpRaw c (inr ForeignConn) ∈ ops_of (Eventstore_writeEvents E cmds s) →
  result_of (Eventstore_writeEvents E cmds s) = Panic PanicTypeAssertion ∧
  ops_of (Eventstore_writeEvents E cmds s)
  = [OpConn (inr c); OpRaw c (inr ForeignConn); OpConnClose c] ∧
  result_of (Push E cmds s) = Panic PanicTypeAssertion ∧
  OpSpanEnd None ∈ ops_of (Push E cmds s).
Proof.
  outer_probe.
  all: intros Hin; in_trace Hin; try discriminate Hin.
  all: try (segment Hin; by simpl in * ).
  all: simplify_eq.
  all: repeat split; try done; in_here.
Qed.

(** X12: the method returns events together with an error in one case
    only, the commit that failed; with every other error it returns no
    event. *)
Theorem events_with_error_only_from_commit cmds s events e :
  result_of (Eventstore_writeEvents E cmds s) = Ret (events, Some e) →
  events ≠ [] →
  ∃ t, OpCommit t (Some e) ∈ ops_of (Eventstore_writeEvents E cmds s).
Proof.
  outer.
  all: intros [=] Hne; subst; try done.
  match goal with H : transaction _ ?t _ ?s0 = _ |- _ =>
    destruct (transaction_end E t cmds s0) as (fin & tail & Htx & Hfin);
    revert Htx Hfin; unfold result_of at 2 3 4, ops_of at 1; rewrite H; simpl;
    intros Htx Hfin; exists t
  end.
  destruct (result_of (txBody E _ cmds _)) as [[evs [e'|]]|p].
  - destruct Hfin as (_ & _ & [=]). by subst.
  - destruct Hfin as (ec & -> & _ & [= _ <-]). rewrite Htx. in_here.
  - by destruct Hfin as (ec & _ & _ & [=]).
Qed.

(** X13: the fallback, when it is called, is called with the commands of
    [Push], after every call of the primary path (its transaction ended, its
    connection closed), on the state that path left; [Push] returns what
    the fallback returns and ends its span with the error of the fallback. *)
Theorem fallback_follows_primary cmds s cs err :
  OpPushWithoutFunc cs err ∈ ops_of (Push E cmds s) →
  cs = cmds ∧
  ops_of (Push E cmds s)
  = OpSpanStart :: ops_of (Eventstore_writeEvents E cmds s)
      ++ [OpPushWithoutFunc cmds err; OpSpanEnd err] ∧
  ∃ events,
    pushWithoutFunc E cmds (state_of (Eventstore_writeEvents E cmds s))
    = ((events, err), state_of (Push E cmds s)) ∧
    result_of (Push E cmds s) = Ret (events, err).
Proof.
  pose proof (primary_no_fallback E cmds s) as Hnf. revert Hnf.
  unfold result_of, state_of, ops_of. rewrite Push_run.
  destruct (Eventstore_writeEvents E cmds s) as [[[[events e]|p] s1] o1];
    simpl; intros Hnf.
  - destruct (isSetupNotExecutedError E e); simpl.
    + destruct (pushWithoutFunc E cmds s1) as [[evs e'] s2] eqn:Hf; simpl.
      intros Hin. in_trace Hin; try discriminate Hin.
      * segment Hin. by simpl in *.
      * simplify_eq. repeat split. by exists evs.
    + intros Hin. in_trace Hin; try discriminate Hin. segment Hin. by simpl in *.
  - intros Hin. in_trace Hin; try discriminate Hin. segment Hin. by simpl in *.
Qed.

(** X14: the span of [Push] is opened first and ended last, with the error
    [Push] returns, be it the one of the fallback, and with none when
    [Push] panics. *)
Theorem push_span_reports_result cmds s :
  ∃ mid err,
    ops_of (Push E cmds s) = OpSpanStart :: mid ++ [OpSpanEnd err] ∧
    match result_of (Push E cmds s) with
    | Ret (_, e) => err = e
    | Panic _ => err = None
    end.
Proof.
  unfold result_of, ops_of. rewrite Push_run.
  destruct (Eventstore_writeEvents E cmds s) as [[[[events e]|p] s1] o1]; simpl.
  - destruct (isSetupNotExecutedError E e); simpl.
    + destruct (pushWithoutFunc E cmds s1) as [[evs e'] s2]; simpl.
      exists (o1 ++ [OpPushWithoutFunc cmds e']), e'. split; [trace_eq|done].
    + by exists o1, e.
  - by exists o1, None.
Qed.

(** X15: every statement of the method runs on the transaction that was
    begun: the bulk insert, the unique constraints, the accommodation, the
    field projection, the rollback and the commit are called on no other. *)
Theorem calls_on_the_begun_transaction cmds s c opts t o t' :
  OpBeginTx c opts (inr t) ∈ ops_of (Eventstore_writeEvents E cmds s) →
  o ∈ ops_of (Eventstore_writeEvents E cmds s) →
  tx_of o = Some t' → t' = t.
Proof.
  intros Hb Hin Ho.
  destruct (primary_begun E cmds s c opts t Hb) as (probe & s0 & _ & Hops & Hprobe & _).
  destruct (transaction_end E t cmds s0) as (fin & tail & Htx & Hfin).
  destruct (txBody_facts E t cmds s0) as (_ & Hbody & _).
  rewrite Hops, Htx in Hin.
  in_trace Hin; subst; simpl in Ho; try done.
  - segment Hin. by destruct o.
  - segment Hin. by apply Hseg.
  - destruct (result_of (txBody E t cmds s0)) as [[events [e|]]|p].
    + destruct Hfin as ([er ->] & _). by simplify_eq/=.
    + destruct Hfin as (ec & -> & _). by simplify_eq/=.
    + destruct Hfin as (ec & -> & _). by simplify_eq/=.
  - destruct (result_of (txBody E t cmds s0)) as [[events [e|]]|p].
    + destruct Hfin as (_ & -> & _). by apply elem_of_nil in Hin.
    + destruct Hfin as (ec & _ & -> & _).
      destruct ec; in_trace Hin; subst; by simpl in Ho.
    + destruct Hfin as (ec & _ & -> & _).
      destruct ec; in_trace Hin; subst; by simpl in Ho.
Qed.


End Extras.

(** ** The operator: Destroy *)

Module Operator.

(** Handles of the [mntr.Monitor] and of the [kubernetes.ClientInt]. *)
Definition monitor := nat.
Definition k8sClient := nat.

Section Destroy.
(** The [tree.Tree] values, declared outside this file, and the zero value
    [tree.Tree{}]. *)
Context {Tree : Type} (zeroTree : Tree).
Context {W : Type}.

(** A [DestroyFunc]; [None] is the nil function. *)
Definition DestroyFunc : Type := option (k8sClient → W → option error * W).

(** The calls leaving [Destroy], with their arguments and results. *)
Inductive Call :=
| CallReadCrd (k : k8sClient) (r : error + Tree)
| CallAdapt (orb : option nat) (action version : string) (gitops : bool)
    (features : list string) (m : monitor) (desired current : Tree)
    (err : option error)
| CallDestroy (k : k8sClient) (err : option error).

(** What [Destroy] calls: [zitadel.ReadCrd], and [orbz.AdaptFunc] applied
    to its configuration and then to the monitor and the two trees, of
    which the destroy function and the error are used. *)
Record Env := mkEnv {
  ReadCrd : k8sClient → W → (error + Tree) * W;
  AdaptFunc : option nat → string → string → bool → list string →
              monitor → Tree → Tree → W → (DestroyFunc * option error) * W;
}.

Definition Destroy (E : Env) (m : monitor) (k : k8sClient) (w : W)
    : outcome (option error) * W * list Call :=
  let '(r, w1) := ReadCrd E k w in
  match r with
  | inl e => (Ret (Some e), w1, [CallReadCrd k r])
  | inr desired =>
      let emptyVersion := "" in
      let '((destroy, err), w2) :=
        AdaptFunc E None "ensure" emptyVersion false ["operator"; "iam"]
          m desired zeroTree w1 in
      let adapted :=
        CallAdapt None "ensure" emptyVersion false ["operator"; "iam"]
          m desired zeroTree err in
      match err with
      | Some e => (Ret (Some e), w2, [CallReadCrd k r; adapted])
      | None =>
          match destroy with
          | None => (Panic PanicNilDereference, w2, [CallReadCrd k r; adapted])
          | Some f =>
              let '(err, w3) := f k w2 in
              (Ret err, w3, [CallReadCrd k r; adapted; CallDestroy k err])
          end
      end
  end.

Definition failed (e : error) (c : Call) : Prop :=
  match c with
  | CallReadCrd _ (inl e') | CallAdapt _ _ _ _ _ _ _ _ (Some e') => e' = e
  | _ => False
  end.

(** X17: [Destroy] stops at the first error: when reading the CRD or
    adapting fails, that error is returned and nothing is destroyed.  The
    destroy function is called at most once, last, with the client [Destroy]
    was given, after the CRD was read with that client and adapted from the
    tree read, against an empty current tree, for the action "ensure"; and
    [Destroy] returns what it returns. *)
Theorem Destroy_stops_at_first_error E m k w :
  (∀ e c, c ∈ (Destroy E m k w).2 → failed e c →
     (Destroy E m k w).1.1 = Ret (Some e) ∧
     ∀ k' err, CallDestroy k' err ∉ (Destroy E m k w).2) ∧
  (∀ k' err, CallDestroy k' err ∈ (Destroy E m k w).2 →
     k' = k ∧ (Destroy E m k w).1.1 = Ret err ∧
     ∃ desired,
       (Destroy E m k w).2
       = [CallReadCrd k (inr desired);
          CallAdapt None "ensure" "" false ["operator"; "iam"] m desired
            zeroTree None;
          CallDestroy k err]).
Proof.
  unfold Destroy.
  destruct (ReadCrd E k w) as [[e0|desired] w1]; simpl.
  { split.
    - intros e c Hin Hf. in_trace Hin; subst; simpl in Hf; subst.
      split; [done|]. intros k' err Hc. in_trace Hc; discriminate Hc.
    - intros k' err Hc. in_trace Hc; discriminate Hc. }
  destruct (AdaptFunc E None "ensure" "" false ["operator"; "iam"] m desired
              zeroTree w1) as [[destroy [e0|]] w2]; simpl.
  { split.
    - intros e c Hin Hf. in_trace Hin; subst; simpl in Hf; try done; subst.
      split; [done|]. intros k' err Hc. in_trace Hc; discriminate Hc.
    - intros k' err Hc. in_trace Hc; discriminate Hc. }
  destruct destroy as [f|]; simpl.
  - destruct (f k w2) as [err w3]; simpl. split.
    + intros e c Hin Hf. in_trace Hin; subst; simpl in Hf; done.
    + intros k' err' Hc. in_trace Hc; try discriminate Hc.
      injection Hc as -> ->. split; [done|]. split; [done|]. by exists desired.
  - split.
    + intros e c Hin Hf. in_trace Hin; subst; simpl in Hf; done.
    + intros k' err Hc. in_trace Hc; discriminate Hc.
Qed.

End Destroy.

End Operator.

(** ** The further properties on the simulated backend *)

Definition conn_fails : Sim.faults :=
  {| Sim.f_type := "postgres"; Sim.f_driver := StdlibConn 7;
     Sim.f_conn := Some "pool exhausted"; Sim.f_raw := None;
     Sim.f_register := None; Sim.f_begin := None; Sim.f_translate := None;
     Sim.f_query := None; Sim.f_rows := None; Sim.f_unique := None;
     Sim.f_exec := None; Sim.f_field := None; Sim.f_rollback := None;
     Sim.f_commit := None; Sim.f_fallback := None |}.

Definition register_fails : Sim.faults :=
  {| Sim.f_type := "postgres"; Sim.f_driver := StdlibConn 7;
     Sim.f_conn := None; Sim.f_raw := None;
     Sim.f_register := Some "type does not exist"; Sim.f_begin := None;
     Sim.f_translate := None;
     Sim.f_query := None; Sim.f_rows := None; Sim.f_unique := None;
     Sim.f_exec := None; Sim.f_field := None; Sim.f_rollback := None;
     Sim.f_commit := None; Sim.f_fallback := None |}.

Definition foreign_driver : Sim.faults :=
  {| Sim.f_type := "postgres"; Sim.f_driver := ForeignConn;
     Sim.f_conn := None; Sim.f_raw := None;
     Sim.f_register := None; Sim.f_begin := None; Sim.f_translate := None;
     Sim.f_query := None; Sim.f_rows := None; Sim.f_unique := None;
     Sim.f_exec := None; Sim.f_field := None; Sim.f_rollback := None;
     Sim.f_commit := None; Sim.f_fallback := None |}.

Definition one_row : Sim.faults :=
  {| Sim.f_type := "postgres"; Sim.f_driver := StdlibConn 7;
     Sim.f_conn := None; Sim.f_raw := None;
     Sim.f_register := None; Sim.f_begin := None; Sim.f_translate := None;
     Sim.f_query := None;
     Sim.f_rows := Some (mkRows [inr (mkrow 1000 1 1)] None);
     Sim.f_unique := None;
     Sim.f_exec := None; Sim.f_field := None; Sim.f_rollback := None;
     Sim.f_commit := None; Sim.f_fallback := None |}.

Definition second_scan_fails : Sim.faults :=
  {| Sim.f_type := "postgres"; Sim.f_driver := StdlibConn 7;
     Sim.f_conn := None; Sim.f_raw := None;
     Sim.f_register := None; Sim.f_begin := None; Sim.f_translate := None;
     Sim.f_query := None;
     Sim.f_rows := Some (mkRows [inr (mkrow 1000 1 1); inl ("bad column", UpToCreatedAt 2000)] None);
     Sim.f_unique := None;
     Sim.f_exec := None; Sim.f_field := None; Sim.f_rollback := None;
     Sim.f_commit := None; Sim.f_fallback := None |}.

(** The backend [E] with another translator. *)
Definition with_translator {W} (E : Env W)
    (tr : list Command → gmap ptr event →
          (error + list Event * list command) * gmap ptr event) : Env W :=
  {| client_Conn := client_Conn E; client_Type := client_Type E;
     conn_Close := conn_Close E; conn_Raw := conn_Raw E;
     typeMap_TypeForValue := typeMap_TypeForValue E;
     registerEventstoreTypes := registerEventstoreTypes E;
     conn_BeginTx := conn_BeginTx E; commandsToEvents := tr;
     push2Stmt := push2Stmt E; tx_QueryContext := tx_QueryContext E;
     handleUniqueConstraints := handleUniqueConstraints E;
     tx_Exec := tx_Exec E; handleFieldCommands := handleFieldCommands E;
     tx_Rollback := tx_Rollback E; tx_Commit := tx_Commit E;
     pushWithoutFunc := pushWithoutFunc E;
     isSetupNotExecutedError := isSetupNotExecutedError E |}.

(** A translator that hands out the nil [*event]. *)
Definition nil_events : Env Sim.world :=
  with_translator (Sim.env Sim.healthy)
    (λ cmds h, (inr ((λ _, EventPtr None) <$> cmds, mkcommand <$> cmds), h)).

Lemma connection_always_closed_run :
  OpConn (inr 1)
    ∈ ops_of (Eventstore_writeEvents (Sim.env Sim.too_many_rows) [Sim.cmd1] Sim.start) ∧
  ∃ mid,
    ops_of (Eventstore_writeEvents (Sim.env Sim.too_many_rows) [Sim.cmd1] Sim.start)
    = OpConn (inr 1) :: mid ++ [OpConnClose 1] ∧
    Forall (λ o, ¬ conn_op o) mid.
Proof.
  assert (OpConn (inr 1)
    ∈ ops_of (Eventstore_writeEvents (Sim.env Sim.too_many_rows) [Sim.cmd1] Sim.start))
    as Hin by computed_in.
  split; [done|].
  exact (connection_always_closed (Sim.env Sim.too_many_rows) [Sim.cmd1] Sim.start
           1 Hin).
Defined.

Lemma acquisition_failure_run :
  OpConn (inl "pool exhausted")
    ∈ ops_of (Eventstore_writeEvents (Sim.env conn_fails) [Sim.cmd1] Sim.start) ∧
  result_of (Eventstore_writeEvents (Sim.env conn_fails) [Sim.cmd1] Sim.start)
  = Ret ([], Some "pool exhausted") ∧
  ops_of (Push (Sim.env conn_fails) [Sim.cmd1] Sim.start)
  = [OpSpanStart; OpConn (inl "pool exhausted"); OpSpanEnd (Some "pool exhausted")].
Proof.
  assert (OpConn (inl "pool exhausted")
    ∈ ops_of (Eventstore_writeEvents (Sim.env conn_fails) [Sim.cmd1] Sim.start))
    as Hin by computed_in.
  split; [done|].
  destruct (acquisition_failure (Sim.env conn_fails) [Sim.cmd1] Sim.start _ Hin)
    as (Hres & _ & _ & Hpush).
  split; [done|]. by apply Hpush.
Defined.

Lemma transaction_ended_once_run :
  OpBeginTx 1 readCommittedRW (inr 2)
    ∈ ops_of (Eventstore_writeEvents (Sim.env Sim.unique_fails) [Sim.cmd1] Sim.start) ∧
  ∃ l1 fin l2,
    ops_of (Eventstore_writeEvents (Sim.env Sim.unique_fails) [Sim.cmd1] Sim.start)
    = l1 ++ fin :: l2 ∧
    ((∃ er, fin = OpRollback 2 er) ∨ (∃ ec, fin = OpCommit 2 ec)) ∧
    Forall (λ o, ¬ end_op o) l1 ∧
    Forall closing_op l2.
Proof.
  assert (OpBeginTx 1 readCommittedRW (inr 2)
    ∈ ops_of (Eventstore_writeEvents (Sim.env Sim.unique_fails) [Sim.cmd1] Sim.start))
    as Hin by computed_in.
  split; [done|].
  exact (transaction_ended_once (Sim.env Sim.unique_fails) [Sim.cmd1] Sim.start
           1 _ 2 Hin).
Defined.

Lemma panic_in_transaction_commits_run :
  (OpBeginTx 1 readCommittedRW (inr 2)
     ∈ ops_of (Eventstore_writeEvents (Sim.env Sim.too_many_rows) [Sim.cmd1] Sim.start) ∧
   result_of (Eventstore_writeEvents (Sim.env Sim.too_many_rows) [Sim.cmd1] Sim.start)
   = Panic (PanicIndexOutOfRange 1 1)) ∧
  (∃ ec, OpCommit 2 ec
         ∈ ops_of (Eventstore_writeEvents (Sim.env Sim.too_many_rows) [Sim.cmd1]
                     Sim.start)) ∧
  ∀ t' er,
    OpRollback t' er
      ∉ ops_of (Eventstore_writeEvents (Sim.env Sim.too_many_rows) [Sim.cmd1] Sim.start).
Proof.
  assert (OpBeginTx 1 readCommittedRW (inr 2)
     ∈ ops_of (Eventstore_writeEvents (Sim.env Sim.too_many_rows) [Sim.cmd1] Sim.start))
    as Hin by computed_in.
  assert (result_of (Eventstore_writeEvents (Sim.env Sim.too_many_rows) [Sim.cmd1]
                       Sim.start) = Panic (PanicIndexOutOfRange 1 1)) as Hp
    by (by vm_compute).
  split; [done|].
  destruct (panic_in_transaction_commits (Sim.env Sim.too_many_rows) [Sim.cmd1]
              Sim.start 1 _ 2 _ Hin Hp) as (Hc & Hr & _).
  done.
Defined.

Lemma rows_always_closed_run :
  OpQuery 2 "push2.sql" [mkcommand Sim.cmd1]
      (inr (mkRows [inr (mkrow 1000 1 1); inr (mkrow 1000 2 2)] None))
    ∈ ops_of (writeEvents (Sim.env Sim.too_many_rows) 2 [Sim.cmd1] Sim.start) ∧
  ∃ pre err,
    ops_of (writeEvents (Sim.env Sim.too_many_rows) 2 [Sim.cmd1] Sim.start)
    = pre ++ [OpRowsClose; OpSpanEnd err] ∧
    Forall (λ o, o ≠ OpRowsClose) pre ∧
    match result_of (writeEvents (Sim.env Sim.too_many_rows) 2 [Sim.cmd1] Sim.start)
    with
    | Ret (_, e) => err = e
    | Panic _ => err = None
    end.
Proof.
  assert (OpQuery 2 "push2.sql" [mkcommand Sim.cmd1]
      (inr (mkRows [inr (mkrow 1000 1 1); inr (mkrow 1000 2 2)] None))
    ∈ ops_of (writeEvents (Sim.env Sim.too_many_rows) 2 [Sim.cmd1] Sim.start))
    as Hin by computed_in.
  split; [done|].
  exact (rows_always_closed (Sim.env Sim.too_many_rows) 2 [Sim.cmd1] Sim.start
           _ _ _ _ Hin).
Defined.

Lemma short_answer_accepted_run :
  result_of (writeEvents (Sim.env one_row) 2 [Sim.cmd1; Sim.cmd2] Sim.start)
  = Ret ([EventPtr (Some 0); EventPtr (Some 1)], None) ∧
  heap (state_of (writeEvents (Sim.env one_row) 2 [Sim.cmd1; Sim.cmd2] Sim.start))
    !! 1
  = Some (mkevent (mkcommand Sim.cmd2) 0 0 0).
Proof.
  destruct (short_answer_accepted (Sim.env one_row) 2 [Sim.cmd1; Sim.cmd2] Sim.start
              [EventPtr (Some 0); EventPtr (Some 1)]
              [mkcommand Sim.cmd1; mkcommand Sim.cmd2]
              (Sim.placeholders [Sim.cmd1; Sim.cmd2] ∅).2
              (mkRows [inr (mkrow 1000 1 1)] None)
              (tx_QueryContext (Sim.env one_row) 2 "push2.sql"
                 [mkcommand Sim.cmd1; mkcommand Sim.cmd2] Sim.fresh_world).2)
    as [Hres Hframe].
  - by vm_compute.
  - by vm_compute.
  - reflexivity.
  - intros [|[|k]] item Hk; simpl in Hk; [|done..].
    injection Hk as <-. by exists (mkrow 1000 1 1), 0.
  - split; [exact Hres|]. rewrite Hframe; [by vm_compute|].
    intros [|k] Hk; simpl in Hk; [done|lia].
Defined.

Lemma scan_failure_ends_the_scan_run :
  OpScan 1 (Some "bad column")
    ∈ ops_of (writeEvents (Sim.env second_scan_fails) 2 [Sim.cmd1; Sim.cmd2]
                Sim.start) ∧
  result_of (writeEvents (Sim.env second_scan_fails) 2 [Sim.cmd1; Sim.cmd2] Sim.start)
  = Ret ([], Some "bad column") ∧
  ∀ err,
    OpRowsErr err
      ∉ ops_of (writeEvents (Sim.env second_scan_fails) 2 [Sim.cmd1; Sim.cmd2]
                  Sim.start).
Proof.
  assert (OpScan 1 (Some "bad column")
    ∈ ops_of (writeEvents (Sim.env second_scan_fails) 2 [Sim.cmd1; Sim.cmd2]
                Sim.start)) as Hin by computed_in.
  split; [done|].
  destruct (scan_failure_ends_the_scan (Sim.env second_scan_fails) 2
              [Sim.cmd1; Sim.cmd2] Sim.start 1 "bad column" Hin)
    as (Hres & _ & _ & Hne & _).
  done.
Defined.

(** The scan that fails at its second column has assigned the first: the
    event of the second command keeps that creation date, its sequence and
    position as the translator made them, and the event of the first command
    keeps its row, though the function returns no event. *)
Example failed_scan_keeps_columns :
  result_of (writeEvents (Sim.env second_scan_fails) 2 [Sim.cmd1; Sim.cmd2]
               Sim.start)
  = Ret ([], Some "bad column") ∧
  heap (state_of (writeEvents (Sim.env second_scan_fails) 2 [Sim.cmd1; Sim.cmd2]
                    Sim.start)) !! 0
  = Some (mkevent (mkcommand Sim.cmd1) 1000 1 1) ∧
  heap (state_of (writeEvents (Sim.env second_scan_fails) 2 [Sim.cmd1; Sim.cmd2]
                    Sim.start)) !! 1
  = Some (mkevent (mkcommand Sim.cmd2) 2000 0 0).
Proof. by vm_compute. Qed.

Lemma writeEvents_returns_run :
  ∃ events err,
    result_of (writeEvents (Sim.env one_row) 2 [Sim.cmd1; Sim.cmd2] Sim.start)
    = Ret (events, err).
Proof.
  apply (writeEvents_returns (Sim.env one_row) 2 [Sim.cmd1; Sim.cmd2] Sim.start).
  intros events payload h1 rows w1 Htr Hq.
  vm_compute in Htr. injection Htr as <- <- <-.
  vm_compute in Hq. injection Hq as <- <-.
  split; [|simpl; lia].
  intros ev Hev. in_trace Hev; subst; by eexists.
Defined.

Lemma nil_event_panics_run :
  result_of (writeEvents nil_events 2 [Sim.cmd1] Sim.start)
  = Panic PanicNilDereference ∧
  ∃ events payload rows a,
    OpCommandsToEvents [Sim.cmd1] (inr (events, payload))
      ∈ ops_of (writeEvents nil_events 2 [Sim.cmd1] Sim.start) ∧
    OpQuery 2 (push2Stmt nil_events) payload (inr rows)
      ∈ ops_of (writeEvents nil_events 2 [Sim.cmd1] Sim.start) ∧
    a < length (rows_items rows) ∧ events !! a = Some (EventPtr None).
Proof.
  assert (result_of (writeEvents nil_events 2 [Sim.cmd1] Sim.start)
          = Panic PanicNilDereference) as Hres by (by vm_compute).
  split; [done|].
  exact (nil_event_panics nil_events 2 [Sim.cmd1] Sim.start Hres).
Defined.

Lemma probe_error_returned_run :
  (OpRegisterTypes 7 (Some "type does not exist")
     ∈ ops_of (Eventstore_writeEvents (Sim.env register_fails) [Sim.cmd1] Sim.start) ∧
   probe_failed "type does not exist"
     (OpRegisterTypes 7 (Some "type does not exist"))) ∧
  result_of (Eventstore_writeEvents (Sim.env register_fails) [Sim.cmd1] Sim.start)
  = Ret ([], Some "type does not exist") ∧
  Forall (λ o, ¬ begin_op o ∧ ¬ tx_op o)
    (ops_of (Eventstore_writeEvents (Sim.env register_fails) [Sim.cmd1] Sim.start)) ∧
  result_of (Push (Sim.env register_fails) [Sim.cmd1] Sim.start)
  = Ret ([], Some "type does not exist").
Proof.
  assert (OpRegisterTypes 7 (Some "type does not exist")
     ∈ ops_of (Eventstore_writeEvents (Sim.env register_fails) [Sim.cmd1] Sim.start))
    as Hin by computed_in.
  assert (probe_failed "type does not exist"
     (OpRegisterTypes 7 (Some "type does not exist"))) as Hf by reflexivity.
  split; [done|].
  destruct (probe_error_returned (Sim.env register_fails) [Sim.cmd1] Sim.start
              _ _ Hin Hf) as (Hres & Hnone & _ & Hpush).
  split; [done|]. split; [done|]. by apply Hpush.
Defined.

Lemma foreign_driver_panics_run :
  OpRaw 1 (inr ForeignConn)
    ∈ ops_of (Eventstore_writeEvents (Sim.env foreign_driver) [Sim.cmd1] Sim.start) ∧
  result_of (Eventstore_writeEvents (Sim.env foreign_driver) [Sim.cmd1] Sim.start)
  = Panic PanicTypeAssertion ∧
  ops_of (Eventstore_writeEvents (Sim.env foreign_driver) [Sim.cmd1] Sim.start)
  = [OpConn (inr 1); OpRaw 1 (inr ForeignConn); OpConnClose 1] ∧
  result_of (Push (Sim.env foreign_driver) [Sim.cmd1] Sim.start)
  = Panic PanicTypeAssertion ∧
  OpSpanEnd None ∈ ops_of (Push (Sim.env foreign_driver) [Sim.cmd1] Sim.start).
Proof.
  assert (OpRaw 1 (inr ForeignConn)
    ∈ ops_of (Eventstore_writeEvents (Sim.env foreign_driver) [Sim.cmd1] Sim.start))
    as Hin by computed_in.
  split; [done|].
  exact (foreign_driver_panics (Sim.env foreign_driver) [Sim.cmd1] Sim.start 1 Hin).
Defined.

Lemma events_with_error_only_from_commit_run :
  (result_of (Eventstore_writeEvents (Sim.env Sim.commit_fails) [Sim.cmd1] Sim.start)
   = Ret ([EventPtr (Some 0)], Some "commit failed") ∧
   [EventPtr (Some 0)] ≠ []) ∧
  ∃ t, OpCommit t (Some "commit failed")
       ∈ ops_of (Eventstore_writeEvents (Sim.env Sim.commit_fails) [Sim.cmd1]
                   Sim.start).
Proof.
  assert (result_of (Eventstore_writeEvents (Sim.env Sim.commit_fails) [Sim.cmd1]
                       Sim.start)
          = Ret ([EventPtr (Some 0)], Some "commit failed")) as Hres
    by (by vm_compute).
  assert ([EventPtr (Some 0)] ≠ []) as Hne by done.
  split; [done|].
  exact (events_with_error_only_from_commit (Sim.env Sim.commit_fails) [Sim.cmd1]
           Sim.start _ _ Hres Hne).
Defined.

Lemma fallback_follows_primary_run :
  OpPushWithoutFunc [Sim.cmd1] None
    ∈ ops_of (Push (Sim.env Sim.not_set_up) [Sim.cmd1] Sim.start) ∧
  ops_of (Push (Sim.env Sim.not_set_up) [Sim.cmd1] Sim.start)
  = OpSpanStart
      :: ops_of (Eventstore_writeEvents (Sim.env Sim.not_set_up) [Sim.cmd1] Sim.start)
      ++ [OpPushWithoutFunc [Sim.cmd1] None; OpSpanEnd None] ∧
  OpRollback 2 None
    ∈ ops_of (Eventstore_writeEvents (Sim.env Sim.not_set_up) [Sim.cmd1] Sim.start).
Proof.
  assert (OpPushWithoutFunc [Sim.cmd1] None
    ∈ ops_of (Push (Sim.env Sim.not_set_up) [Sim.cmd1] Sim.start)) as Hin
    by computed_in.
  split; [done|].
  destruct (fallback_follows_primary (Sim.env Sim.not_set_up) [Sim.cmd1] Sim.start
              _ _ Hin) as (_ & Hops & _).
  split; [done|computed_in].
Defined.

Lemma calls_on_the_begun_transaction_run :
  (OpBeginTx 1 readCommittedRW (inr 2)
     ∈ ops_of (Eventstore_writeEvents (Sim.env Sim.cockroach) [Sim.cmd1] Sim.start) ∧
   OpExec 2 enableMultipleModifications None
     ∈ ops_of (Eventstore_writeEvents (Sim.env Sim.cockroach) [Sim.cmd1] Sim.start) ∧
   tx_of (OpExec 2 enableMultipleModifications None) = Some 2) ∧
  2 = 2.
Proof.
  assert (OpBeginTx 1 readCommittedRW (inr 2)
     ∈ ops_of (Eventstore_writeEvents (Sim.env Sim.cockroach) [Sim.cmd1] Sim.start))
    as Hb by computed_in.
  assert (OpExec 2 enableMultipleModifications None
     ∈ ops_of (Eventstore_writeEvents (Sim.env Sim.cockroach) [Sim.cmd1] Sim.start))
    as Hin by computed_in.
  split; [done|].
  exact (calls_on_the_begun_transaction (Sim.env Sim.cockroach) [Sim.cmd1] Sim.start
           1 _ 2 _ 2 Hb Hin eq_refl).
Defined.


(** An operator of which the adaptation fails. *)
Definition failing_adapt : Operator.Env (Tree:=string) (W:=unit) :=
  Operator.mkEnv
    (λ _ w, (inr "zitadel.caos.ch/v1", w))
    (λ _ _ _ _ _ _ _ _ w, ((None, Some "unknown kind"), w)).

Lemma Destroy_stops_at_first_error_run :
  (Operator.Destroy "" failing_adapt 0 1 tt).1.1 = Ret (Some "unknown kind") ∧
  ∀ k' err,
    Operator.CallDestroy k' err ∉ (Operator.Destroy "" failing_adapt 0 1 tt).2.
Proof.
  destruct (Operator.Destroy_stops_at_first_error "" failing_adapt 0 1 tt)
    as [Hfail _].
  apply (Hfail "unknown kind"
           (Operator.CallAdapt None "ensure" "" false ["operator"; "iam"] 0
              "zitadel.caos.ch/v1" "" (Some "unknown kind"))).
  - vm_compute. in_here.
  - reflexivity.
Defined.
